(** * A shallow embedding of RedisCopyDatabase.py

    The wire codec ([ProtocolHandler]), the command dispatcher and the
    key-value store ([Server]) are embedded as functions over byte lists and
    Python-like values; the properties of the specification are proved about
    these functions.

    How the program is modelled:
    - the socket file of a connection is the list of the bytes its peer
      sends before closing; a read that would block is not modelled, a read
      at the end of the list is the end of the stream;
    - a [str] is its UTF-8 encoding, a [dict] the list of its entries in
      insertion order, an [int] a [Z];
    - exceptions are results ([outcome]); the store is passed explicitly;
    - [str.upper] is a parameter of the dispatcher ([str_upper]), with
      [upper_ascii] as its instance on ASCII text;
    - the recursion of the decoder and the loop of a connection are bounded
      by the length of the stream through a fuel argument, and both are
      proved total ([decode_total], [connection_handler_total]). *)

From Stdlib Require Import String Ascii ZArith List Lia Bool Decimal DecimalZ.
Import ListNotations.

(** ** Bytes *)

(** A Python [bytes] object, and the content of the socket file, is a list of
    8-bit characters.  A Python [str] is represented by its UTF-8 encoding
    (see [utf8_valid]), so [str.encode('utf-8')] and [bytes.decode()] are the
    identity on the representation, the second one being partial. *)
Definition bytes := list ascii.

Definition b (s : string) : bytes := list_ascii_of_string s.

Definition CR : ascii := "013"%char.
Definition LF : ascii := "010"%char.
Definition CRLF : bytes := [CR; LF].

(** ** Values and exceptions *)

(** The values [ProtocolHandler.handle_request] can return: [None], [int],
    [str], [Error(message)], [list] and [dict].  A [dict] keeps its entries in
    insertion order.  These are also the only values the server ever hands to
    [_write].  (The client hands it the tuple of the words of a command,
    which [_write] treats as the list of the same words: see [request].) *)
Unset Elimination Schemes.
Inductive value : Type :=
| PNone
| PInt (n : Z)
| PStr (s : bytes)
| PError (message : bytes)
| PList (items : list value)
| PDict (entries : list (value * value)).
Set Elimination Schemes.

(** The exceptions the modelled code raises.  [CommandError] and [Disconnect]
    are the two classes of the program, the others are raised by the Python
    runtime: [int()] on a malformed number and [read] on a bad length
    ([ValueError]), [bytes.decode] ([UnicodeDecodeError]), an unhashable
    dictionary key or a call with the wrong number of arguments
    ([TypeError]), [.upper()] on something that is not a string
    ([AttributeError]). *)
Inductive exn : Type :=
| Disconnect
| CommandError (msg : bytes)
| TypeError
| ValueError
| UnicodeDecodeError
| AttributeError.

Inductive outcome (A : Type) : Type :=
| Ok (a : A)
| Raise (e : exn).

Arguments Ok {A} a.
Arguments Raise {A} e.

(** ** Decimal integers: [f"{n}"] and [int(line)] *)

Fixpoint uint_digits (u : uint) : bytes :=
  match u with
  | Nil => []
  | D0 u => "0"%char :: uint_digits u
  | D1 u => "1"%char :: uint_digits u
  | D2 u => "2"%char :: uint_digits u
  | D3 u => "3"%char :: uint_digits u
  | D4 u => "4"%char :: uint_digits u
  | D5 u => "5"%char :: uint_digits u
  | D6 u => "6"%char :: uint_digits u
  | D7 u => "7"%char :: uint_digits u
  | D8 u => "8"%char :: uint_digits u
  | D9 u => "9"%char :: uint_digits u
  end.

(** [f"{n}"] for an [int]: the canonical decimal numeral, with a leading
    minus sign for a negative number.  (CPython's configurable limit on the
    number of digits of a numeral is not modelled.) *)
Definition str_of_int (z : Z) : bytes :=
  match Z.to_int z with
  | Pos u => uint_digits u
  | Neg u => "-"%char :: uint_digits u
  end.

Definition digit_of (c : ascii) : option (uint -> uint) :=
  match c with
  | "0"%char => Some D0
  | "1"%char => Some D1
  | "2"%char => Some D2
  | "3"%char => Some D3
  | "4"%char => Some D4
  | "5"%char => Some D5
  | "6"%char => Some D6
  | "7"%char => Some D7
  | "8"%char => Some D8
  | "9"%char => Some D9
  | _ => None
  end.

Definition is_digit (c : ascii) : bool :=
  match digit_of c with Some _ => true | None => false end.

(** The white space [int()] skips around a numeral given as [bytes]. *)
Definition is_space (c : ascii) : bool :=
  match c with
  | " "%char | "009"%char | "010"%char | "011"%char | "012"%char
  | "013"%char => true
  | _ => false
  end.

Fixpoint lstrip_space (s : bytes) : bytes :=
  match s with
  | c :: t => if is_space c then lstrip_space t else s
  | [] => []
  end.

(** The digits of a numeral: a digit, then digits each optionally preceded
    by one underscore.  Returns the digits and what follows them. *)
Fixpoint scan_digits (s : bytes) : option (uint * bytes) :=
  match s with
  | [] => None
  | c :: t =>
    match digit_of c with
    | None => None
    | Some d =>
      match t with
      | [] => Some (d Nil, [])
      | c' :: t' =>
        if is_digit c' then
          match scan_digits t with
          | Some (u, r) => Some (d u, r)
          | None => None
          end
        else if Ascii.eqb c' "_" then
          match scan_digits t' with
          | Some (u, r) => Some (d u, r)
          | None => None
          end
        else Some (d Nil, t)
      end
    end
  end.

(** [int(s)] for [s : bytes]: optional white space, an optional sign, the
    digits, optional white space; [None] stands for [ValueError]. *)
Definition split_sign (s : bytes) : bool * bytes :=
  match s with
  | "-"%char :: t => (true, t)
  | "+"%char :: t => (false, t)
  | _ => (false, s)
  end.

Definition int_of_bytes (s : bytes) : option Z :=
  let '(neg, s2) := split_sign (lstrip_space s) in
  match scan_digits s2 with
  | Some (u, rest) =>
    if forallb is_space rest
    then Some (Z.of_int (if neg then Neg u else Pos u))
    else None
  | None => None
  end.

(** ** UTF-8: [bytes.decode()] *)

Definition in_range (lo hi : N) (c : ascii) : bool :=
  (lo <=? N_of_ascii c)%N && (N_of_ascii c <=? hi)%N.

Definition is_cont (c : ascii) : bool := in_range 128 191 c.

(** Well-formed UTF-8 (no overlong form, no surrogate, nothing above
    U+10FFFF): the byte sequences [bytes.decode()] accepts; on the others it
    raises [UnicodeDecodeError]. *)
Fixpoint utf8_valid (s : bytes) : bool :=
  match s with
  | [] => true
  | b0 :: t0 =>
    if in_range 0 127 b0 then utf8_valid t0 else
    match t0 with
    | [] => false
    | b1 :: t1 =>
      if in_range 194 223 b0 then is_cont b1 && utf8_valid t1 else
      match t1 with
      | [] => false
      | b2 :: t2 =>
        if in_range 224 239 b0 then
          (if in_range 224 224 b0 then in_range 160 191 b1
           else if in_range 237 237 b0 then in_range 128 159 b1
           else is_cont b1)
          && is_cont b2 && utf8_valid t2
        else
        match t2 with
        | [] => false
        | b3 :: t3 =>
          if in_range 240 244 b0 then
            (if in_range 240 240 b0 then in_range 144 191 b1
             else if in_range 244 244 b0 then in_range 128 143 b1
             else is_cont b1)
            && is_cont b2 && is_cont b3 && utf8_valid t3
          else false
        end
      end
    end
  end.

(** ** The socket file *)

(** [socket_file.readline()]: the bytes up to and including the first line
    feed, or everything that is left when there is none.  The second
    component is what remains to be read. *)
Fixpoint readline (s : bytes) : bytes * bytes :=
  match s with
  | [] => ([], [])
  | c :: t =>
    if Ascii.eqb c LF then ([c], t)
    else let '(l, r) := readline t in (c :: l, r)
  end.

(** [line.rstrip(b'\r\n')]: drops every trailing carriage return and line
    feed. *)
Fixpoint rstrip (l : bytes) : bytes :=
  match l with
  | [] => []
  | c :: t =>
    match rstrip t with
    | [] => if Ascii.eqb c CR || Ascii.eqb c LF then [] else [c]
    | t' => c :: t'
    end
  end.

(** [socket_file.read(n)]: [n] bytes, or fewer at the end of the stream;
    everything that is left for [n = -1]; [ValueError] below [-1]. *)
Definition read (n : Z) (s : bytes) : outcome (bytes * bytes) :=
  if (n =? -1)%Z then Ok (s, [])
  else if (n <? -1)%Z then Raise ValueError
  else Ok (firstn (Z.to_nat n) s, skipn (Z.to_nat n) s).

(** [data[:-2]] *)
Definition drop_last2 (s : bytes) : bytes := firstn (length s - 2) s.

(** [socket_file.readline().rstrip(b'\r\n')] read as an [int] *)
Definition read_int_line (s : bytes) : outcome (Z * bytes) :=
  let '(line, rest) := readline s in
  match int_of_bytes (rstrip line) with
  | Some n => Ok (n, rest)
  | None => Raise ValueError
  end.

(** [socket_file.readline().rstrip(b'\r\n').decode()] *)
Definition read_text_line (s : bytes) : outcome (bytes * bytes) :=
  let '(line, rest) := readline s in
  let text := rstrip line in
  if utf8_valid text then Ok (text, rest) else Raise UnicodeDecodeError.

(** ** Python dictionaries *)

(** Lists and dictionaries are unhashable: using one as a dictionary key
    raises [TypeError].  [None], integers, strings and [Error] tuples of a
    string are hashable. *)
Definition hashable (v : value) : bool :=
  match v with
  | PList _ | PDict _ => false
  | _ => true
  end.

Fixpoint bytes_eqb (x y : bytes) : bool :=
  match x, y with
  | [], [] => true
  | c :: x', d :: y' => Ascii.eqb c d && bytes_eqb x' y'
  | _, _ => false
  end.

(** Python's [==] between two hashable values of the model. *)
Definition key_eqb (x y : value) : bool :=
  match x, y with
  | PNone, PNone => true
  | PInt m, PInt n => (m =? n)%Z
  | PStr s, PStr t => bytes_eqb s t
  | PError s, PError t => bytes_eqb s t
  | _, _ => false
  end.

(** A [dict] is the list of its entries in insertion order; the keys of a
    dictionary are hashable and pairwise different ([dict_ok]). *)
Definition dict := list (value * value).

Definition dict_ok (d : dict) : Prop :=
  NoDup (map fst d) /\ forallb hashable (map fst d) = true.

(** [d.get(k)], with [None] for a missing key written [PNone] by the
    callers; here the option tells the two apart. *)
Fixpoint dict_get (d : dict) (k : value) : option value :=
  match d with
  | [] => None
  | (k', v') :: d' => if key_eqb k k' then Some v' else dict_get d' k
  end.

(** [d[k] = v]: an existing key keeps its place, a new one goes last. *)
Fixpoint dict_set (k v : value) (d : dict) : dict :=
  match d with
  | [] => [(k, v)]
  | (k', v') :: d' =>
    if key_eqb k k' then (k', v) :: d' else (k', v') :: dict_set k v d'
  end.

(** [d.pop(k, None)]: the value removed, if any, and the dictionary left. *)
Fixpoint dict_pop (k : value) (d : dict) : option value * dict :=
  match d with
  | [] => (None, [])
  | (k', v') :: d' =>
    if key_eqb k k' then (Some v', d')
    else let '(r, d'') := dict_pop k d' in (r, (k', v') :: d'')
  end.

(** [l[::2]] and [l[1::2]] *)
Fixpoint evens {A : Type} (l : list A) : list A :=
  match l with
  | [] => []
  | x :: t => x :: match t with [] => [] | _ :: t' => evens t' end
  end.

Definition odds {A : Type} (l : list A) : list A := evens (tl l).

(** [zip(l[::2], l[1::2])] *)
Definition pairs {A : Type} (l : list A) : list (A * A) :=
  combine (evens l) (odds l).

Definition set_all (ps : list (value * value)) (d : dict) : dict :=
  fold_left (fun d p => dict_set (fst p) (snd p) d) ps d.

(** [dict(ps)] for a sequence of pairs: the pairs are inserted in order;
    [TypeError] when a key is unhashable. *)
Definition dict_of_pairs (ps : list (value * value)) : outcome dict :=
  if forallb hashable (map fst ps) then Ok (set_all ps []) else Raise TypeError.

(** ** The encoder: [ProtocolHandler._write] *)

(** The bytes [_write] appends to the buffer.  A [str] is written as a bulk
    string ([$]): the encoder has no rule that writes a simple string ([+]).
    Every value of the model is of a supported type, so the final [else]
    branch of the source (an unrecognized type) is not reached. *)
Fixpoint _write (data : value) : bytes :=
  match data with
  | PStr s => b "$" ++ str_of_int (Z.of_nat (length s)) ++ CRLF ++ s ++ CRLF
  | PInt n => b ":" ++ str_of_int n ++ CRLF
  | PError message => b "-" ++ message ++ CRLF
  | PList items =>
    b "*" ++ str_of_int (Z.of_nat (length items)) ++ CRLF
      ++ flat_map _write items
  | PDict entries =>
    b "%" ++ str_of_int (Z.of_nat (length entries)) ++ CRLF
      ++ flat_map (fun e => let '(key, item) := e in _write key ++ _write item) entries
  | PNone => b "$-1" ++ CRLF
  end.

(** [write_response]: the encoding of [data] is written after what the
    socket already carries. *)
Definition write_response (socket_file : bytes) (data : value) : bytes :=
  socket_file ++ _write data.

(** ** The decoder: [ProtocolHandler.handle_request] *)

(** The result of reading from a stream: [None] when the fuel of the model
    ran out (which [decode] excludes, see [decode_total]), otherwise the
    outcome with what remains of the stream. *)
Definition parser (A : Type) := option (outcome (A * bytes)).

Inductive handler : Type :=
| simple_string_handler | error_handler | integer_handler
| string_handler | array_handler | dict_handler.

(** [self.handlers]: a lookup that fails is a [KeyError]. *)
Definition handlers (first_byte : ascii) : option handler :=
  match first_byte with
  | "+"%char => Some simple_string_handler
  | "-"%char => Some error_handler
  | ":"%char => Some integer_handler
  | "$"%char => Some string_handler
  | "*"%char => Some array_handler
  | "%"%char => Some dict_handler
  | _ => None
  end.

Definition handle_simple_string (s : bytes) : outcome (value * bytes) :=
  match read_text_line s with
  | Ok (text, rest) => Ok (PStr text, rest)
  | Raise e => Raise e
  end.

Definition handle_error (s : bytes) : outcome (value * bytes) :=
  match read_text_line s with
  | Ok (text, rest) => Ok (PError text, rest)
  | Raise e => Raise e
  end.

Definition handle_integer (s : bytes) : outcome (value * bytes) :=
  match read_int_line s with
  | Ok (n, rest) => Ok (PInt n, rest)
  | Raise e => Raise e
  end.

Definition handle_string (s : bytes) : outcome (value * bytes) :=
  match read_int_line s with
  | Raise e => Raise e
  | Ok (len, s1) =>
    if (len =? -1)%Z then Ok (PNone, s1)
    else
      match read (len + 2) s1 with
      | Raise e => Raise e
      | Ok (data, s2) =>
        let text := drop_last2 data in
        if utf8_valid text then Ok (PStr text, s2) else Raise UnicodeDecodeError
      end
  end.

(** [handle_array] and [handle_dict] take the list comprehension
    [[self.handle_request(socket_file) for _ in range(n)]] as [elements]. *)
Definition handle_array (elements : Z -> bytes -> parser (list value))
    (s : bytes) : parser value :=
  match read_int_line s with
  | Raise e => Some (Raise e)
  | Ok (num_elements, s1) =>
    match elements num_elements s1 with
    | None => None
    | Some (Raise e) => Some (Raise e)
    | Some (Ok (l, s2)) => Some (Ok (PList l, s2))
    end
  end.

Definition handle_dict (elements : Z -> bytes -> parser (list value))
    (s : bytes) : parser value :=
  match read_int_line s with
  | Raise e => Some (Raise e)
  | Ok (num_items, s1) =>
    match elements (num_items * 2)%Z s1 with
    | None => None
    | Some (Raise e) => Some (Raise e)
    | Some (Ok (l, s2)) =>
      match dict_of_pairs (pairs l) with
      | Ok d => Some (Ok (PDict d, s2))
      | Raise e => Some (Raise e)
      end
    end
  end.

(** [handle_request] reads one value.  Every call reads the tag byte first,
    so the recursion is bounded by the length of the stream; [fuel] makes
    that bound structural. *)
Fixpoint handle_request (fuel : nat) (s : bytes) {struct fuel} : parser value :=
  match fuel with
  | O => None
  | S fuel' =>
    match s with
    | [] => Some (Raise Disconnect)
    | first_byte :: s' =>
      match handlers first_byte with
      | None => Some (Raise (CommandError (b "bad request")))
      | Some simple_string_handler => Some (handle_simple_string s')
      | Some error_handler => Some (handle_error s')
      | Some integer_handler => Some (handle_integer s')
      | Some string_handler => Some (handle_string s')
      | Some array_handler => handle_array (handle_requests fuel') s'
      | Some dict_handler => handle_dict (handle_requests fuel') s'
      end
    end
  end

with handle_requests (fuel : nat) (n : Z) (s : bytes) {struct fuel}
    : parser (list value) :=
  if (n <=? 0)%Z then Some (Ok ([], s)) else
  match fuel with
  | O => None
  | S fuel' =>
    match handle_request fuel' s with
    | None => None
    | Some (Raise e) => Some (Raise e)
    | Some (Ok (v, s1)) =>
      match handle_requests fuel' (n - 1) s1 with
      | None => None
      | Some (Raise e) => Some (Raise e)
      | Some (Ok (vs, s2)) => Some (Ok (v :: vs, s2))
      end
    end
  end.

(** One value read from the stream [s], with fuel enough for any stream of
    that length. *)
Definition decode (s : bytes) : parser value :=
  handle_request (2 * length s + 1) s.

(** ** The store: [Server._kv] and the six commands *)

(** [self._kv]: a dictionary from hashable values to values.  Each command
    returns the store it leaves and what it returned or raised. *)
Definition store := dict.

Definition is_none (v : value) : bool :=
  match v with PNone => true | _ => false end.

Definition or_none (r : option value) : value :=
  match r with Some v => v | None => PNone end.

Definition get (kv : store) (key : value) : store * outcome value :=
  if hashable key then (kv, Ok (or_none (dict_get kv key)))
  else (kv, Raise TypeError).

Definition set (kv : store) (key val : value) : store * outcome value :=
  if hashable key then (dict_set key val kv, Ok (PInt 1))
  else (kv, Raise TypeError).

Definition delete (kv : store) (key : value) : store * outcome value :=
  if hashable key then
    let '(r, kv') := dict_pop key kv in
    (kv', Ok (PInt (if is_none (or_none r) then 0 else 1)))
  else (kv, Raise TypeError).

Definition flush (kv : store) : store * outcome value :=
  let kvlen := Z.of_nat (length kv) in
  ([], Ok (PInt kvlen)).

Fixpoint mget_values (kv : store) (keys : list value) : outcome (list value) :=
  match keys with
  | [] => Ok []
  | key :: keys' =>
    if hashable key then
      match mget_values kv keys' with
      | Ok vs => Ok (or_none (dict_get kv key) :: vs)
      | Raise e => Raise e
      end
    else Raise TypeError
  end.

Definition mget (kv : store) (keys : list value) : store * outcome value :=
  match mget_values kv keys with
  | Ok vs => (kv, Ok (PList vs))
  | Raise e => (kv, Raise e)
  end.

(** The loop of [mset]: the assignments made before an unhashable key is
    met stay in the store. *)
Fixpoint mset_loop (kv : store) (ps : list (value * value)) : store * option exn :=
  match ps with
  | [] => (kv, None)
  | (key, val) :: ps' =>
    if hashable key then mset_loop (dict_set key val kv) ps'
    else (kv, Some TypeError)
  end.

Definition mset (kv : store) (items : list value) : store * outcome value :=
  match mset_loop kv (pairs items) with
  | (kv', None) => (kv', Ok (PInt (Z.of_nat (length items) / 2)))
  | (kv', Some e) => (kv', Raise e)
  end.

(** ** The dispatcher: [Server.get_response] *)

Inductive command : Type := GET | SET | DELETE | FLUSH | MGET | MSET.

(** [self._commands], from [get_commands] *)
Definition get_commands (name : bytes) : option command :=
  if bytes_eqb name (b "GET") then Some GET
  else if bytes_eqb name (b "SET") then Some SET
  else if bytes_eqb name (b "DELETE") then Some DELETE
  else if bytes_eqb name (b "FLUSH") then Some FLUSH
  else if bytes_eqb name (b "MGET") then Some MGET
  else if bytes_eqb name (b "MSET") then Some MSET
  else None.

(** The call of [self._commands[command]] on the unpacked arguments
    [data[1:]]: a call whose number of arguments does not fit the signature
    of the method raises [TypeError]. *)
Definition call (c : command) (kv : store) (args : list value)
    : store * outcome value :=
  match c, args with
  | GET, [key] => get kv key
  | SET, [key; val] => set kv key val
  | DELETE, [key] => delete kv key
  | FLUSH, [] => flush kv
  | MGET, keys => mget kv keys
  | MSET, items => mset kv items
  | _, _ => (kv, Raise TypeError)
  end.

(** The number of arguments the signature of each method fixes; [None] for
    the two variadic ones. *)
Definition arity (c : command) : option nat :=
  match c with
  | GET => Some 1
  | SET => Some 2
  | DELETE => Some 1
  | FLUSH => Some 0
  | MGET | MSET => None
  end.

(** How a connection ends: the peer closed its side ([Disconnect], caught by
    the loop), or an exception left [connection_handler]. *)
Inductive ending : Type :=
| PeerDisconnected
| Uncaught (e : exn).

(** One turn of the loop of [connection_handler]: it stops, or it writes a
    response and goes on with the rest of the stream. *)
Inductive iteration : Type :=
| Stop (kv : store) (why : ending)
| Reply (kv : store) (resp : value) (rest : bytes).

(** [str.upper] on ASCII letters, the other bytes being kept. *)
Definition ascii_upper (c : ascii) : ascii :=
  if in_range 97 122 c then ascii_of_N (N_of_ascii c - 32) else c.

Definition upper_ascii (s : bytes) : bytes := map ascii_upper s.

Section Dispatcher.

(** Python's [str.upper].  It is a parameter of the dispatcher: on ASCII
    text it is [upper_ascii], and the theorems below do not depend on what
    it does to other letters. *)
Variable str_upper : bytes -> bytes.

Definition get_response (kv : store) (data : value) : store * outcome value :=
  match data with
  | PList items =>
    match items with
    | [] => (kv, Raise (CommandError (b "Missing command")))
    | first :: args =>
      match first with
      | PStr name =>
        let command := str_upper name in
        match get_commands command with
        | None =>
          (kv, Raise (CommandError (b "Unrecognized command: " ++ command)))
        | Some method => call method kv args
        end
      | _ => (kv, Raise AttributeError)
      end
    end
  | _ => (kv, Raise (CommandError (b "Request must be list.")))
  end.

(** The second [try] of the loop: a [CommandError] becomes the [Error]
    response, any other exception is not caught. *)
Definition respond (kv : store) (data : value) : store * outcome value :=
  match get_response kv data with
  | (kv', Raise (CommandError msg)) => (kv', Ok (PError msg))
  | r => r
  end.

(** The body of the loop of [connection_handler].  Only [Disconnect] is
    caught around [handle_request]. *)
Definition serve_request (kv : store) (input : bytes) : option iteration :=
  match decode input with
  | None => None
  | Some (Raise Disconnect) => Some (Stop kv PeerDisconnected)
  | Some (Raise e) => Some (Stop kv (Uncaught e))
  | Some (Ok (data, rest)) =>
    match respond kv data with
    | (kv', Ok resp) => Some (Reply kv' resp rest)
    | (kv', Raise e) => Some (Stop kv' (Uncaught e))
    end
  end.

(** [connection_handler]: the store left, the bytes written to the socket
    and how the connection ended.  Every turn that goes on has read at
    least one byte, which bounds the loop. *)
Fixpoint connection_loop (fuel : nat) (kv : store) (input output : bytes)
    : option (store * bytes * ending) :=
  match fuel with
  | O => None
  | S fuel' =>
    match serve_request kv input with
    | None => None
    | Some (Stop kv' why) => Some (kv', output, why)
    | Some (Reply kv' resp rest) =>
      connection_loop fuel' kv' rest (write_response output resp)
    end
  end.

Definition connection_handler (kv : store) (input : bytes)
    : option (store * bytes * ending) :=
  connection_loop (S (length input)) kv input [].

(** *** Several connections on one store *)

(** A connection of the server: what its peer has sent and is not read
    yet, what was written to it, and how it ended once it is closed. *)
Record connection : Type := Connection {
  pending : bytes;
  sent : bytes;
  closed : option ending
}.

Record server : Type := Server {
  kv_of : store;
  connections : list connection
}.

Fixpoint update_nth {A : Type} (i : nat) (x : A) (l : list A) : list A :=
  match l, i with
  | [], _ => []
  | _ :: t, O => x :: t
  | y :: t, S i' => y :: update_nth i' x t
  end.

(** The connection [i] runs one turn of its loop.  Greenlets are switched
    only inside socket reads and writes, and decoding does not touch the
    store, so a turn acts on the store as one step. *)
Definition server_step (i : nat) (st : server) : option server :=
  match nth_error (connections st) i with
  | None => Some st
  | Some c =>
    match closed c with
    | Some _ => Some st
    | None =>
      match serve_request (kv_of st) (pending c) with
      | None => None
      | Some (Stop kv' why) =>
        Some (Server kv'
                (update_nth i (Connection (pending c) (sent c) (Some why))
                            (connections st)))
      | Some (Reply kv' resp rest) =>
        Some (Server kv'
                (update_nth i (Connection rest (write_response (sent c) resp) None)
                            (connections st)))
      end
    end
  end.

End Dispatcher.

(** The request a client writes for a command and its arguments. *)
Definition request (words : list bytes) : bytes :=
  _write (PList (map PStr words)).

(** ** Auxiliary notions *)

(** Where the scan of a numeral stops: at the end, or before a byte that is
    neither a digit nor an underscore. *)
Definition ends_scan (rest : bytes) : Prop :=
  match rest with
  | [] => True
  | c :: _ => is_digit c = false /\ Ascii.eqb c "_" = false
  end.

(** The bytes of a numeral: digits and the minus sign. *)
Definition is_numeral_char (c : ascii) : bool := is_digit c || Ascii.eqb c "-".

(** A text without line feed. *)
Definition no_lf (m : bytes) : bool := forallb (fun c => negb (Ascii.eqb c LF)) m.

(** A text a line can carry: no line feed inside, and no carriage return or
    line feed at its end, which [rstrip] would take away. *)
Definition line_text (m : bytes) : bool := no_lf m && bytes_eqb (rstrip m) m.

(** ** Induction on values *)

Section ValueInduction.

Variable P : value -> Prop.
Hypothesis HNone : P PNone.
Hypothesis HInt : forall n, P (PInt n).
Hypothesis HStr : forall s, P (PStr s).
Hypothesis HError : forall m, P (PError m).
Hypothesis HList : forall l, Forall P l -> P (PList l).
Hypothesis HDict :
  forall d, Forall (fun e => P (fst e) /\ P (snd e)) d -> P (PDict d).

Fixpoint value_ind (v : value) : P v :=
  match v with
  | PNone => HNone
  | PInt n => HInt n
  | PStr s => HStr s
  | PError m => HError m
  | PList l =>
    HList l
      ((fix all (l : list value) : Forall P l :=
          match l with
          | [] => Forall_nil P
          | x :: t => Forall_cons x (value_ind x) (all t)
          end) l)
  | PDict d =>
    HDict d
      ((fix all (d : list (value * value))
          : Forall (fun e => P (fst e) /\ P (snd e)) d :=
          match d with
          | [] => Forall_nil _
          | e :: t =>
            Forall_cons e (conj (value_ind (fst e)) (value_ind (snd e))) (all t)
          end) d)
  end.

End ValueInduction.

(** ** Values that can be carried over the wire *)

Fixpoint distinct_keys (ks : list value) : bool :=
  match ks with
  | [] => true
  | k :: t => negb (existsb (key_eqb k) t) && distinct_keys t
  end.

(** The values of the model that stand for a Python object: the strings are
    UTF-8 encodings, and the keys of a dictionary are hashable and pairwise
    different. *)
Fixpoint is_python (v : value) : bool :=
  match v with
  | PNone | PInt _ => true
  | PStr s => utf8_valid s
  | PError m => utf8_valid m
  | PList l => forallb is_python l
  | PDict d =>
    forallb (fun e => is_python (fst e) && is_python (snd e)) d
    && forallb hashable (map fst d) && distinct_keys (map fst d)
  end.

(** Every [Error] message inside the value fits on one line of the wire. *)
Fixpoint line_errors (v : value) : bool :=
  match v with
  | PError m => line_text m
  | PList l => forallb line_errors l
  | PDict d => forallb (fun e => line_errors (fst e) && line_errors (snd e)) d
  | _ => true
  end.

(** The round-trip law for one value: whatever follows its encoding in the
    stream, decoding gives the value back and leaves what follows. *)
Definition round_trip (v : value) : Prop :=
  forall rest, decode (_write v ++ rest) = Some (Ok (v, rest)).

(** [v] is read back from its encoding with any fuel from [fuel] on. *)
Definition reads_back (v : value) : Prop :=
  exists fuel, forall fuel' rest,
      fuel <= fuel' -> handle_request fuel' (_write v ++ rest) = Some (Ok (v, rest)).

(** ** Notions used by the statements about the dispatcher *)

(** The requests [get_response] rejects before it calls a command: what is
    not a list, the empty list, and a list whose first element is a string
    that names no command. *)
Definition not_dispatched (str_upper : bytes -> bytes) (data : value) : Prop :=
  match data with
  | PList [] => True
  | PList (PStr name :: _) => get_commands (str_upper name) = None
  | PList _ => False
  | _ => True
  end.

(** The number of arguments does not fit the command. *)
Definition arity_mismatch (c : command) (args : list value) : Prop :=
  match arity c with
  | Some n => length args <> n
  | None => False
  end.

(** The request at the head of [input] is answered by an [Error] and the
    connection goes on with the rest of the stream. *)
Definition answered_by_error (str_upper : bytes -> bytes) (kv : store)
    (input : bytes) : Prop :=
  exists kv' msg rest,
    serve_request str_upper kv input = Some (Reply kv' (PError msg) rest).

(** The tag bytes of the protocol. *)
Definition tags : bytes := b "+-:$*%".

(** ** Sample data *)

Definition sample_value : value :=
  PDict [(PStr (b "k"), PList [PNone; PInt (-42); PError (b "oops")]);
         (PInt 7, PStr (b "line" ++ CRLF ++ b "break"));
         (PNone, PDict [])].

(** The error the server answers to a command name that holds a line feed. *)
Definition newline_error : value :=
  PError (b "Unrecognized command: A" ++ [LF] ++ b "B").

Definition sample_items : list value :=
  [PStr (b "b"); PStr (b "2"); PStr (b "c"); PStr (b "3"); PStr (b "d")].

Definition duplicate_frame : bytes :=
  b "2" ++ CRLF ++ b "+a" ++ CRLF ++ b ":1" ++ CRLF ++ b "+a" ++ CRLF
    ++ b ":2" ++ CRLF.

(** ** The client: [Client.execute] *)

(** What [execute] returns or raises once its request is written: it reads
    one value from the socket [fh]; an [Error] is raised as a [CommandError]
    that carries its message, any other value is returned as it is. *)
Definition execute_result (fh : bytes) : parser value :=
  match decode fh with
  | Some (Ok (PError message, _)) => Some (Raise (CommandError message))
  | r => r
  end.

(** [Client.execute]: the bytes written to the socket (the tuple of the
    arguments, which [_write] treats as a list) and the result read from
    what the server sends back. *)
Definition execute (fh : bytes) (args : list value) : bytes * parser value :=
  (write_response [] (PList args), execute_result fh).

(** The wrappers of [Client]: each forwards to [execute] with the name of
    its command first. *)
Definition client_get (fh : bytes) (key : value) :=
  execute fh [PStr (b "GET"); key].
Definition client_set (fh : bytes) (key val : value) :=
  execute fh [PStr (b "SET"); key; val].
Definition client_delete (fh : bytes) (key : value) :=
  execute fh [PStr (b "DELETE"); key].
Definition client_flush (fh : bytes) := execute fh [PStr (b "FLUSH")].
Definition client_mget (fh : bytes) (keys : list value) :=
  execute fh (PStr (b "MGET") :: keys).
Definition client_mset (fh : bytes) (items : list value) :=
  execute fh (PStr (b "MSET") :: items).

(** One call of a client against the server: the connection handler of the
    server runs on the bytes [execute] writes, and [execute] reads its
    result from the bytes the handler wrote back. *)
Definition exchange (str_upper : bytes -> bytes) (kv : store)
    (args : list value) : option (store * parser value) :=
  match connection_handler str_upper kv (fst (execute [] args)) with
  | None => None
  | Some (kv', reply, _) => Some (kv', snd (execute reply args))
  end.

(** What [execute] makes of the value the server sent, when that value is
    all the socket holds. *)
Definition returned (v : value) : parser value :=
  match v with
  | PError message => Some (Raise (CommandError message))
  | _ => Some (Ok (v, []))
  end.

(** The result of a connection with [out] written before it. *)
Definition prepend (out : bytes) (r : store * bytes * ending)
    : store * bytes * ending :=
  let '(kv, o, why) := r in (kv, out ++ o, why).

(** A value that can be written and read back: see [is_python] and
    [line_errors]. *)
Definition wire_ok (v : value) : bool := is_python v && line_errors v.

(** A store whose keys and values can all be written and read back. *)
Definition store_wire_ok (kv : store) : Prop :=
  Forall (fun e => wire_ok (fst e) = true /\ wire_ok (snd e) = true) kv.

(** The items of [MSET] for a list of pairs. *)
Definition flatten_pairs (ps : list (value * value)) : list value :=
  flat_map (fun e => [fst e; snd e]) ps.

(** The bytes a stream has lost between [s] and what is [left] of it. *)
Definition reads_forward (s left : bytes) : Prop :=
  exists used, used <> [] /\ s = used ++ left.

(** * Properties *)

(** ** The model on examples *)

Example str_of_int_ex :
  (str_of_int 0, str_of_int (-120), str_of_int 4096) = (b "0", b "-120", b "4096").
Proof. reflexivity. Qed.

Example int_of_bytes_ex :
  map int_of_bytes [b "12"; b "-7"; b " +1_000 "; b "007"; b ""; b "-"; b "1__0"; b "1_"; b "12a"]
  = [Some 12; Some (-7); Some 1000; Some 7; None; None; None; None; None]%Z.
Proof. reflexivity. Qed.

Example readline_ex :
  readline (b "ab" ++ CRLF ++ b "cd") = (b "ab" ++ CRLF, b "cd").
Proof. reflexivity. Qed.

Example rstrip_ex :
  (rstrip (b "ab" ++ CRLF), rstrip (b "a" ++ [LF] ++ b "b" ++ [CR; CR; LF]), rstrip CRLF)
  = (b "ab", b "a" ++ [LF] ++ b "b", []).
Proof. reflexivity. Qed.

Example utf8_valid_ex :
  map utf8_valid
    [b "abc"; ["195"; "169"]%char; ["195"]%char; ["192"; "128"]%char;
     ["237"; "160"; "128"]%char; ["240"; "159"; "152"; "128"]%char; ["255"]%char]
  = [true; true; false; false; false; true; false].
Proof. reflexivity. Qed.

Example write_ex :
  _write (PList [PStr (b "SET"); PStr (b "a"); PInt 1; PNone])
  = b "*4" ++ CRLF ++ b "$3" ++ CRLF ++ b "SET" ++ CRLF ++ b "$1" ++ CRLF
      ++ b "a" ++ CRLF ++ b ":1" ++ CRLF ++ b "$-1" ++ CRLF.
Proof. reflexivity. Qed.

Example decode_ex :
  decode (b "%2" ++ CRLF ++ b "+k" ++ CRLF ++ b ":1" ++ CRLF ++ b "$1" ++ CRLF
            ++ b "j" ++ CRLF ++ b "*1" ++ CRLF ++ b "-e" ++ CRLF ++ b "tail")
  = Some (Ok (PDict [(PStr (b "k"), PInt 1); (PStr (b "j"), PList [PError (b "e")])],
              b "tail")).
Proof. reflexivity. Qed.

Example decode_errors :
  map decode [[]; b "?x"; b ":x" ++ CRLF; b "*2" ++ CRLF ++ b ":1" ++ CRLF;
              b "%1" ++ CRLF ++ b "*0" ++ CRLF ++ b ":1" ++ CRLF; b "$-4" ++ CRLF]
  = [Some (Raise Disconnect); Some (Raise (CommandError (b "bad request")));
     Some (Raise ValueError); Some (Raise Disconnect); Some (Raise TypeError);
     Some (Raise ValueError)].
Proof. reflexivity. Qed.

(** The scenario of the specification: SET, GET, MSET, MGET on one
    connection. *)
Example scenario_set_get_mset_mget :
  connection_handler upper_ascii []
    (request [b "SET"; b "a"; b "1"] ++ request [b "GET"; b "a"]
       ++ request [b "MSET"; b "b"; b "2"; b "c"; b "3"]
       ++ request [b "MGET"; b "a"; b "b"; b "c"])
  = Some ([(PStr (b "a"), PStr (b "1")); (PStr (b "b"), PStr (b "2"));
           (PStr (b "c"), PStr (b "3"))],
          _write (PInt 1) ++ _write (PStr (b "1")) ++ _write (PInt 2)
            ++ _write (PList [PStr (b "1"); PStr (b "2"); PStr (b "3")]),
          PeerDisconnected).
Proof. vm_compute. reflexivity. Qed.

(** An unknown command is answered by an error and the connection goes on. *)
Example scenario_unknown_command :
  connection_handler upper_ascii [] (request [b "foo"] ++ request [b "FLUSH"])
  = Some ([], _write (PError (b "Unrecognized command: FOO")) ++ _write (PInt 0),
          PeerDisconnected).
Proof. vm_compute. reflexivity. Qed.

(** ** Bytes and numerals *)

Lemma bytes_eqb_eq (x y : bytes) : bytes_eqb x y = true <-> x = y.
Proof.
  revert y; induction x as [|c x IH]; intros [|d y]; simpl;
    split; try congruence; try discriminate.
  - rewrite andb_true_iff, Ascii.eqb_eq, IH. intros [-> ->]; reflexivity.
  - intros H; injection H as -> ->.
    rewrite Ascii.eqb_refl. apply IH. reflexivity.
Qed.

Lemma bytes_eqb_refl (x : bytes) : bytes_eqb x x = true.
Proof. apply bytes_eqb_eq. reflexivity. Qed.

Lemma scan_digits_eq (s : bytes) :
  scan_digits s =
  match s with
  | [] => None
  | c :: t =>
    match digit_of c with
    | None => None
    | Some d =>
      match t with
      | [] => Some (d Nil, [])
      | c' :: t' =>
        if is_digit c' then
          match scan_digits t with
          | Some (u, r) => Some (d u, r)
          | None => None
          end
        else if Ascii.eqb c' "_" then
          match scan_digits t' with
          | Some (u, r) => Some (d u, r)
          | None => None
          end
        else Some (d Nil, t)
      end
    end
  end.
Proof. destruct s; reflexivity. Qed.

Lemma uint_digits_head (u : uint) :
  u <> Nil -> exists c t, uint_digits u = c :: t /\ is_digit c = true.
Proof.
  destruct u; intros H; try congruence; simpl; eauto.
Qed.

Lemma uint_digits_are_digits (u : uint) : forallb is_digit (uint_digits u) = true.
Proof. induction u; simpl; auto. Qed.

Lemma scan_digits_uint (u : uint) (rest : bytes) :
  u <> Nil -> ends_scan rest ->
  scan_digits (uint_digits u ++ rest) = Some (u, rest).
Proof.
  intros Hn Hr. induction u; [congruence | ..];
    (assert (Hu : u = Nil \/ u <> Nil)
       by (destruct u; auto; right; discriminate);
     destruct Hu as [-> | Hu];
     [ simpl; destruct rest as [|c r];
       [ reflexivity | destruct Hr as [H1 H2]; rewrite H1, H2; reflexivity ]
     | specialize (IHu Hu);
       destruct (uint_digits_head u Hu) as (c & t & E & Hc);
       simpl uint_digits; rewrite E in *;
       rewrite <- ?app_comm_cons in *;
       rewrite scan_digits_eq; cbv beta iota;
       simpl digit_of; cbv beta iota; rewrite Hc, IHu; reflexivity ]).
Qed.

Lemma to_int_nonnil (z : Z) :
  match Z.to_int z with Pos u | Neg u => u <> Nil end.
Proof.
  destruct z; simpl; try apply DecimalPos.Unsigned.to_uint_nonnil.
  discriminate.
Qed.

Lemma digit_first (c : ascii) (t : bytes) :
  is_digit c = true ->
  lstrip_space (c :: t) = c :: t /\ split_sign (c :: t) = (false, c :: t).
Proof.
  destruct c as [[] [] [] [] [] [] [] []]; try discriminate; split; reflexivity.
Qed.

(** [int(f"{n}")] is [n]. *)
Lemma int_of_bytes_str_of_int (z : Z) : int_of_bytes (str_of_int z) = Some z.
Proof.
  unfold int_of_bytes, str_of_int.
  pose proof (to_int_nonnil z) as Hn. pose proof (DecimalZ.of_to z) as Hz.
  destruct (Z.to_int z) as [u | u].
  - destruct (uint_digits_head u Hn) as (c & t & E & Hc).
    pose proof (scan_digits_uint u [] Hn I) as Hs.
    rewrite app_nil_r in Hs. rewrite E in *.
    destruct (digit_first c t Hc) as [-> ->].
    rewrite Hs. cbn [forallb]. rewrite Hz. reflexivity.
  - pose proof (scan_digits_uint u [] Hn I) as Hs.
    rewrite app_nil_r in Hs.
    change (lstrip_space ("-"%char :: uint_digits u))
      with ("-"%char :: uint_digits u).
    change (split_sign ("-"%char :: uint_digits u)) with (true, uint_digits u).
    cbv beta iota. rewrite Hs. cbn [forallb]. rewrite Hz. reflexivity.
Qed.

Lemma str_of_int_chars (z : Z) : forallb is_numeral_char (str_of_int z) = true.
Proof.
  assert (H : forall u, forallb is_numeral_char (uint_digits u) = true).
  { intros u. pose proof (uint_digits_are_digits u) as Hd.
    rewrite forallb_forall in *. intros c Hc. unfold is_numeral_char.
    rewrite (Hd c Hc). reflexivity. }
  unfold str_of_int. destruct (Z.to_int z); simpl; auto.
Qed.

(** ** Lines *)

Lemma readline_app (l rest : bytes) :
  no_lf l = true -> readline (l ++ CRLF ++ rest) = (l ++ CRLF, rest).
Proof.
  unfold no_lf. change (CRLF ++ rest) with (CR :: LF :: rest).
  induction l as [|c l IH]; simpl; intros H.
  - reflexivity.
  - apply andb_true_iff in H as [Hc Hl]. apply negb_true_iff in Hc.
    rewrite Hc, (IH Hl). reflexivity.
Qed.

Lemma rstrip_app_crlf (l : bytes) : rstrip (l ++ CRLF) = rstrip l.
Proof.
  induction l as [|c l IH]; simpl.
  - reflexivity.
  - rewrite IH. reflexivity.
Qed.

Lemma numeral_line_text (l : bytes) :
  forallb is_numeral_char l = true -> line_text l = true.
Proof.
  intros H. unfold line_text. apply andb_true_iff. split.
  - unfold no_lf. rewrite forallb_forall in *. intros c Hc.
    specialize (H c Hc). destruct (Ascii.eqb_spec c LF) as [-> | ]; auto.
  - apply bytes_eqb_eq. induction l as [|c l IH]; simpl; [reflexivity|].
    simpl in H. apply andb_true_iff in H as [Hc Hl]. rewrite (IH Hl).
    destruct l; [|reflexivity].
    destruct (Ascii.eqb_spec c CR) as [-> | ]; [discriminate|].
    destruct (Ascii.eqb_spec c LF) as [-> | ]; [discriminate|]. reflexivity.
Qed.

Lemma line_text_readline (m rest : bytes) :
  line_text m = true ->
  readline (m ++ CRLF ++ rest) = (m ++ CRLF, rest) /\ rstrip (m ++ CRLF) = m.
Proof.
  unfold line_text. intros H. apply andb_true_iff in H as [H1 H2].
  apply bytes_eqb_eq in H2. split.
  - apply readline_app; assumption.
  - rewrite rstrip_app_crlf. assumption.
Qed.

(** Reading back the line of an integer. *)
Lemma read_int_line_str_of_int (z : Z) (rest : bytes) :
  read_int_line (str_of_int z ++ CRLF ++ rest) = Ok (z, rest).
Proof.
  unfold read_int_line.
  destruct (line_text_readline _ rest (numeral_line_text _ (str_of_int_chars z)))
    as [-> H].
  rewrite H, int_of_bytes_str_of_int. reflexivity.
Qed.

Lemma read_text_line_app (m rest : bytes) :
  line_text m = true -> utf8_valid m = true ->
  read_text_line (m ++ CRLF ++ rest) = Ok (m, rest).
Proof.
  intros H U. unfold read_text_line.
  destruct (line_text_readline m rest H) as [-> ->]. rewrite U. reflexivity.
Qed.

(** ** Keys and dictionaries *)

Lemma key_eqb_eq (x y : value) : key_eqb x y = true -> x = y.
Proof.
  destruct x, y; simpl; try discriminate; intros H.
  - reflexivity.
  - apply Z.eqb_eq in H. congruence.
  - apply bytes_eqb_eq in H. congruence.
  - apply bytes_eqb_eq in H. congruence.
Qed.

Lemma key_eqb_refl (x : value) : hashable x = true -> key_eqb x x = true.
Proof.
  destruct x; simpl; try discriminate; intros _;
    auto using Z.eqb_refl, bytes_eqb_refl.
Qed.

Lemma key_eqb_neq (x y : value) : x <> y -> key_eqb x y = false.
Proof.
  intros H. destruct (key_eqb x y) eqn:E; [|reflexivity].
  apply key_eqb_eq in E. contradiction.
Qed.

Lemma dict_get_set_same (d : dict) (k v : value) :
  hashable k = true -> dict_get (dict_set k v d) k = Some v.
Proof.
  intros Hk. induction d as [|[k' v'] d IH]; simpl.
  - rewrite (key_eqb_refl k Hk). reflexivity.
  - destruct (key_eqb k k') eqn:E; simpl; rewrite E; auto.
Qed.

Lemma key_eqb_false_neq (x y : value) :
  hashable x = true -> key_eqb x y = false -> x <> y.
Proof.
  intros Hx E ->. rewrite (key_eqb_refl y Hx) in E. discriminate.
Qed.

Lemma dict_get_set_other (d : dict) (k k' v : value) :
  k <> k' -> dict_get (dict_set k' v d) k = dict_get d k.
Proof.
  intros Hk. induction d as [|[k2 v2] d IH]; simpl.
  - rewrite (key_eqb_neq k k' Hk). reflexivity.
  - destruct (key_eqb k' k2) eqn:E; simpl.
    + apply key_eqb_eq in E. subst k2.
      rewrite (key_eqb_neq k k' Hk). reflexivity.
    + rewrite IH. reflexivity.
Qed.

Lemma dict_get_none (d : dict) (k : value) :
  ~ In k (map fst d) -> dict_get d k = None.
Proof.
  induction d as [|[k' v'] d IH]; simpl; intros H; [reflexivity|].
  rewrite key_eqb_neq by (intros ->; apply H; left; reflexivity).
  apply IH. intros Hin. apply H. right. assumption.
Qed.

Lemma dict_get_in (d : dict) (k v : value) :
  dict_get d k = Some v -> In (k, v) d.
Proof.
  induction d as [|[k' v'] d IH]; simpl; [discriminate|].
  destruct (key_eqb k k') eqn:E.
  - intros H. injection H as ->. apply key_eqb_eq in E. subst. left. reflexivity.
  - intros H. right. apply IH. assumption.
Qed.

Lemma dict_get_app (d1 d2 : dict) (k : value) :
  dict_get (d1 ++ d2) k
  = match dict_get d1 k with Some v => Some v | None => dict_get d2 k end.
Proof.
  induction d1 as [|[k' v'] d1 IH]; simpl; [reflexivity|].
  destruct (key_eqb k k'); auto.
Qed.

(** A new key goes to the end. *)
Lemma dict_set_fresh (d : dict) (k v : value) :
  ~ In k (map fst d) -> dict_set k v d = d ++ [(k, v)].
Proof.
  induction d as [|[k' v'] d IH]; simpl; intros H; [reflexivity|].
  rewrite key_eqb_neq by (intros ->; apply H; left; reflexivity).
  rewrite IH; [reflexivity|]. intros Hin. apply H. right. assumption.
Qed.

Lemma dict_set_keys_in (d : dict) (k v k' : value) :
  In k' (map fst (dict_set k v d)) <-> k' = k \/ In k' (map fst d).
Proof.
  induction d as [|[k2 v2] d IH]; simpl.
  - intuition congruence.
  - destruct (key_eqb k k2) eqn:E; simpl.
    + apply key_eqb_eq in E. subst k2. intuition congruence.
    + rewrite IH. intuition congruence.
Qed.

Lemma dict_set_length (d : dict) (k v : value) :
  length d <= length (dict_set k v d).
Proof.
  induction d as [|[k2 v2] d IH]; simpl; [lia|].
  destruct (key_eqb k k2); simpl; lia.
Qed.

(** Assignments keep a dictionary well formed. *)
Lemma dict_set_ok (d : dict) (k v : value) :
  hashable k = true -> dict_ok d -> dict_ok (dict_set k v d).
Proof.
  intros Hk. unfold dict_ok.
  induction d as [|[k2 v2] d IH]; simpl; intros [Hn Hh].
  - rewrite Hk. split; [|reflexivity]. constructor; [intros []|constructor].
  - apply andb_true_iff in Hh as [Hh2 Hh]. inversion Hn as [|? ? Hnot Hn']; subst.
    destruct (key_eqb k k2) eqn:E; simpl.
    + rewrite Hh2, Hh. split; [constructor; assumption|reflexivity].
    + destruct (IH (conj Hn' Hh)) as [IH1 IH2]. rewrite Hh2, IH2.
      split; [|reflexivity]. constructor; [|assumption].
      rewrite dict_set_keys_in. intros [-> | Hin]; [|contradiction].
      rewrite (key_eqb_refl k Hk) in E. discriminate.
Qed.

Lemma set_all_ok (ps : list (value * value)) (d : dict) :
  forallb hashable (map fst ps) = true -> dict_ok d -> dict_ok (set_all ps d).
Proof.
  revert d. induction ps as [|[k v] ps IH]; simpl; intros d Hh Hd; [assumption|].
  apply andb_true_iff in Hh as [Hk Hh].
  apply IH; [assumption|]. apply dict_set_ok; assumption.
Qed.

Lemma set_all_keys_in (ps : list (value * value)) (d : dict) (k : value) :
  In k (map fst (set_all ps d)) <-> In k (map fst d) \/ In k (map fst ps).
Proof.
  revert d. induction ps as [|[k1 v1] ps IH]; simpl; intros d.
  - tauto.
  - unfold set_all in *. simpl. rewrite IH, dict_set_keys_in. intuition congruence.
Qed.

(** After a run of assignments a key holds the value of its last assignment,
    or what it held before when it was not assigned. *)
Lemma dict_get_set_all (ps : list (value * value)) (d : dict) (k : value) :
  hashable k = true ->
  dict_get (set_all ps d) k
  = match dict_get (List.rev ps) k with Some v => Some v | None => dict_get d k end.
Proof.
  intros Hk. revert d. induction ps as [|[k1 v1] ps IH]; intros d.
  - reflexivity.
  - change (set_all ((k1, v1) :: ps) d) with (set_all ps (dict_set k1 v1 d)).
    rewrite IH. simpl List.rev. rewrite dict_get_app. simpl.
    destruct (dict_get (List.rev ps) k); [reflexivity|].
    destruct (key_eqb k k1) eqn:E.
    + apply key_eqb_eq in E. subst k1. apply dict_get_set_same. assumption.
    + apply dict_get_set_other. apply key_eqb_false_neq; assumption.
Qed.

(** Inserting the entries of a well-formed dictionary rebuilds it. *)
Lemma set_all_rebuild (ps : list (value * value)) (d : dict) :
  NoDup (map fst (d ++ ps)) -> set_all ps d = d ++ ps.
Proof.
  revert d. induction ps as [|[k v] ps IH]; intros d Hn.
  - rewrite app_nil_r. reflexivity.
  - change (set_all ((k, v) :: ps) d) with (set_all ps (dict_set k v d)).
    assert (Hfresh : ~ In k (map fst d)).
    { rewrite map_app in Hn. simpl in Hn. apply NoDup_remove_2 in Hn.
      intros Hin. apply Hn. apply in_or_app. left. assumption. }
    rewrite (dict_set_fresh d k v Hfresh), IH.
    + rewrite <- app_assoc. reflexivity.
    + rewrite <- app_assoc. assumption.
Qed.

(** A repeated key makes the dictionary shorter than the list of pairs. *)
Lemma set_all_length_dup (ps : list (value * value)) :
  forallb hashable (map fst ps) = true ->
  ~ NoDup (map fst ps) ->
  length (set_all ps []) < length ps.
Proof.
  intros Hh Hdup.
  assert (Hok : dict_ok (set_all ps [])).
  { apply set_all_ok; [assumption|]. split; [constructor|reflexivity]. }
  destruct (Nat.lt_ge_cases (length (set_all ps [])) (length ps)) as [|Hle];
    [assumption|exfalso].
  apply Hdup. apply (NoDup_incl_NoDup (l := map fst (set_all ps []))).
  - apply Hok.
  - rewrite !length_map. assumption.
  - intros k Hin. apply set_all_keys_in in Hin as [[]|Hin]. assumption.
Qed.

Lemma list_ind2 {A : Type} (P : list A -> Prop) :
  P [] -> (forall x, P [x]) -> (forall x y l, P l -> P (x :: y :: l)) ->
  forall l, P l.
Proof.
  intros H0 H1 H2.
  assert (H : forall l, P l /\ forall x, P (x :: l)).
  { induction l as [|y l [IH1 IH2]]; split; auto. }
  intros l. apply H.
Qed.

Lemma pairs_cons2 {A : Type} (x y : A) (l : list A) :
  pairs (x :: y :: l) = (x, y) :: pairs l.
Proof. destruct l; reflexivity. Qed.

Lemma pairs_flat (d : list (value * value)) :
  pairs (flat_map (fun e => [fst e; snd e]) d) = d.
Proof.
  induction d as [|[k v] d IH]; [reflexivity|].
  change (flat_map (fun e => [fst e; snd e]) ((k, v) :: d))
    with (k :: v :: flat_map (fun e => [fst e; snd e]) d).
  rewrite pairs_cons2, IH. reflexivity.
Qed.

(** ** The decoder: fuel, and what it consumes *)

Lemma handle_request_S (fuel : nat) (s : bytes) :
  handle_request (S fuel) s =
  match s with
  | [] => Some (Raise Disconnect)
  | first_byte :: s' =>
    match handlers first_byte with
    | None => Some (Raise (CommandError (b "bad request")))
    | Some simple_string_handler => Some (handle_simple_string s')
    | Some error_handler => Some (handle_error s')
    | Some integer_handler => Some (handle_integer s')
    | Some string_handler => Some (handle_string s')
    | Some array_handler => handle_array (handle_requests fuel) s'
    | Some dict_handler => handle_dict (handle_requests fuel) s'
    end
  end.
Proof. reflexivity. Qed.

Lemma handle_requests_S (fuel : nat) (n : Z) (s : bytes) :
  handle_requests (S fuel) n s =
  if (n <=? 0)%Z then Some (Ok ([], s)) else
  match handle_request fuel s with
  | None => None
  | Some (Raise e) => Some (Raise e)
  | Some (Ok (v, s1)) =>
    match handle_requests fuel (n - 1) s1 with
    | None => None
    | Some (Raise e) => Some (Raise e)
    | Some (Ok (vs, s2)) => Some (Ok (v :: vs, s2))
    end
  end.
Proof. reflexivity. Qed.

Lemma handle_requests_0 (n : Z) (s : bytes) :
  handle_requests 0 n s = if (n <=? 0)%Z then Some (Ok ([], s)) else None.
Proof. reflexivity. Qed.

Lemma readline_split (s : bytes) : fst (readline s) ++ snd (readline s) = s.
Proof.
  induction s as [|c s IH]; simpl; [reflexivity|].
  destruct (Ascii.eqb c LF); simpl; [reflexivity|].
  destruct (readline s) as [l r]. simpl in *. rewrite IH. reflexivity.
Qed.

Lemma readline_rest_length (s : bytes) : length (snd (readline s)) <= length s.
Proof.
  rewrite <- (readline_split s) at 2. rewrite length_app. lia.
Qed.

Lemma read_int_line_rest (s : bytes) (n : Z) (r : bytes) :
  read_int_line s = Ok (n, r) -> length r <= length s.
Proof.
  unfold read_int_line. pose proof (readline_rest_length s) as H.
  destruct (readline s) as [line rest]. simpl in H.
  destruct (int_of_bytes (rstrip line)); intros E; inversion E; subst. assumption.
Qed.

Lemma read_text_line_rest (s text r : bytes) :
  read_text_line s = Ok (text, r) -> length r <= length s.
Proof.
  unfold read_text_line. pose proof (readline_rest_length s) as H.
  destruct (readline s) as [line rest]. simpl in H.
  destruct (utf8_valid (rstrip line)); intros E; inversion E; subst. assumption.
Qed.

Lemma read_rest (n : Z) (s data r : bytes) :
  read n s = Ok (data, r) -> length r <= length s.
Proof.
  unfold read. destruct (n =? -1)%Z.
  - intros E; inversion E; subst. simpl. lia.
  - destruct (n <? -1)%Z; intros E; inversion E; subst.
    rewrite length_skipn. lia.
Qed.

Lemma handle_simple_string_rest s v r :
  handle_simple_string s = Ok (v, r) -> length r <= length s.
Proof.
  unfold handle_simple_string. destruct (read_text_line s) as [[t r']|] eqn:E;
    intros H; inversion H; subst. eapply read_text_line_rest; eassumption.
Qed.

Lemma handle_error_rest s v r :
  handle_error s = Ok (v, r) -> length r <= length s.
Proof.
  unfold handle_error. destruct (read_text_line s) as [[t r']|] eqn:E;
    intros H; inversion H; subst. eapply read_text_line_rest; eassumption.
Qed.

Lemma handle_integer_rest s v r :
  handle_integer s = Ok (v, r) -> length r <= length s.
Proof.
  unfold handle_integer. destruct (read_int_line s) as [[t r']|] eqn:E;
    intros H; inversion H; subst. eapply read_int_line_rest; eassumption.
Qed.

Lemma handle_string_rest s v r :
  handle_string s = Ok (v, r) -> length r <= length s.
Proof.
  unfold handle_string. destruct (read_int_line s) as [[n s1]|] eqn:E;
    [|discriminate].
  apply read_int_line_rest in E. destruct (n =? -1)%Z.
  - intros H; inversion H; subst. assumption.
  - destruct (read (n + 2) s1) as [[data s2]|] eqn:R; [|discriminate].
    apply read_rest in R.
    destruct (utf8_valid (drop_last2 data)); intros H; inversion H; subst. lia.
Qed.

Lemma handle_array_inv elements s v r :
  handle_array elements s = Some (Ok (v, r)) ->
  exists n s1 l,
    read_int_line s = Ok (n, s1) /\ elements n s1 = Some (Ok (l, r))
    /\ v = PList l.
Proof.
  unfold handle_array. destruct (read_int_line s) as [[n s1]|]; [|discriminate].
  destruct (elements n s1) as [[[l s2]|]|] eqn:E; try discriminate.
  intros H; inversion H; subst. eauto 6.
Qed.

Lemma handle_dict_inv elements s v r :
  handle_dict elements s = Some (Ok (v, r)) ->
  exists n s1 l d,
    read_int_line s = Ok (n, s1) /\ elements (n * 2)%Z s1 = Some (Ok (l, r))
    /\ dict_of_pairs (pairs l) = Ok d /\ v = PDict d.
Proof.
  unfold handle_dict. destruct (read_int_line s) as [[n s1]|]; [|discriminate].
  destruct (elements (n * 2)%Z s1) as [[[l s2]|]|] eqn:E; try discriminate.
  destruct (dict_of_pairs (pairs l)) as [d|] eqn:D; try discriminate.
  intros H; inversion H; subst. eauto 8.
Qed.

(** A value that is read takes at least its tag byte from the stream. *)
Lemma handle_request_consumes (fuel : nat) :
  (forall s v r, handle_request fuel s = Some (Ok (v, r)) -> length r < length s)
  /\ (forall n s vs r,
        handle_requests fuel n s = Some (Ok (vs, r)) -> length r <= length s).
Proof.
  induction fuel as [|fuel [IH1 IH2]].
  - split; [discriminate|]. intros n s vs r. rewrite handle_requests_0.
    destruct (n <=? 0)%Z; intros H; inversion H; subst. lia.
  - split.
    + intros s v r. rewrite handle_request_S.
      destruct s as [|c s']; [discriminate|]. simpl length.
      destruct (handlers c) as [[]|]; intros H; try discriminate.
      * inversion H as [H']. apply handle_simple_string_rest in H'. lia.
      * inversion H as [H']. apply handle_error_rest in H'. lia.
      * inversion H as [H']. apply handle_integer_rest in H'. lia.
      * inversion H as [H']. apply handle_string_rest in H'. lia.
      * apply handle_array_inv in H as (n & s1 & l & R & E & _).
        apply read_int_line_rest in R. apply IH2 in E. lia.
      * apply handle_dict_inv in H as (n & s1 & l & d & R & E & _).
        apply read_int_line_rest in R. apply IH2 in E. lia.
    + intros n s vs r. rewrite handle_requests_S.
      destruct (n <=? 0)%Z; [intros H; inversion H; subst; lia|].
      destruct (handle_request fuel s) as [[[v s1]|]|] eqn:E1; try discriminate.
      destruct (handle_requests fuel (n - 1) s1) as [[[vs' s2]|]|] eqn:E2;
        try discriminate.
      intros H; inversion H; subst. apply IH1 in E1. apply IH2 in E2. lia.
Qed.

Lemma handle_array_mono (el1 el2 : Z -> bytes -> parser (list value)) s r :
  (forall n s r, el1 n s = Some r -> el2 n s = Some r) ->
  handle_array el1 s = Some r -> handle_array el2 s = Some r.
Proof.
  intros H. unfold handle_array. destruct (read_int_line s) as [[n s1]|]; auto.
  destruct (el1 n s1) as [o|] eqn:E; [|discriminate].
  rewrite (H _ _ _ E). auto.
Qed.

Lemma handle_dict_mono (el1 el2 : Z -> bytes -> parser (list value)) s r :
  (forall n s r, el1 n s = Some r -> el2 n s = Some r) ->
  handle_dict el1 s = Some r -> handle_dict el2 s = Some r.
Proof.
  intros H. unfold handle_dict. destruct (read_int_line s) as [[n s1]|]; auto.
  destruct (el1 (n * 2)%Z s1) as [o|] eqn:E; [|discriminate].
  rewrite (H _ _ _ E). auto.
Qed.

(** More fuel does not change a result. *)
Lemma handle_request_mono (fuel : nat) :
  (forall fuel' s r,
      fuel <= fuel' -> handle_request fuel s = Some r ->
      handle_request fuel' s = Some r)
  /\ (forall fuel' n s r,
        fuel <= fuel' -> handle_requests fuel n s = Some r ->
        handle_requests fuel' n s = Some r).
Proof.
  induction fuel as [|fuel [IH1 IH2]].
  - split; [discriminate|]. intros fuel' n s r _. rewrite handle_requests_0.
    destruct (n <=? 0)%Z eqn:E; [|discriminate].
    intros H. destruct fuel'.
    + rewrite handle_requests_0, E. assumption.
    + rewrite handle_requests_S, E. assumption.
  - split.
    + intros [|fuel'] s r Hle; [lia|]. rewrite !handle_request_S.
      destruct s as [|c s']; [auto|].
      destruct (handlers c) as [[]|]; auto.
      * apply handle_array_mono. intros n s1 r1. apply IH2. lia.
      * apply handle_dict_mono. intros n s1 r1. apply IH2. lia.
    + intros [|fuel'] n s r Hle; [lia|]. rewrite !handle_requests_S.
      destruct (n <=? 0)%Z; [auto|].
      destruct (handle_request fuel s) as [o|] eqn:E1; [|discriminate].
      rewrite (IH1 fuel' s o ltac:(lia) E1).
      destruct o as [[v s1]|]; [|auto].
      destruct (handle_requests fuel (n - 1) s1) as [o|] eqn:E2; [|discriminate].
      rewrite (IH2 fuel' _ _ o ltac:(lia) E2). auto.
Qed.

Lemma handle_array_total (elements : Z -> bytes -> parser (list value)) s :
  (forall n s1, length s1 <= length s -> elements n s1 <> None) ->
  handle_array elements s <> None.
Proof.
  intros H. unfold handle_array.
  destruct (read_int_line s) as [[n s1]|] eqn:R; [|discriminate].
  apply read_int_line_rest in R. specialize (H n s1 R).
  destruct (elements n s1) as [[[l s2]|]|]; congruence.
Qed.

Lemma handle_dict_total (elements : Z -> bytes -> parser (list value)) s :
  (forall n s1, length s1 <= length s -> elements n s1 <> None) ->
  handle_dict elements s <> None.
Proof.
  intros H. unfold handle_dict.
  destruct (read_int_line s) as [[n s1]|] eqn:R; [|discriminate].
  apply read_int_line_rest in R. specialize (H (n * 2)%Z s1 R).
  destruct (elements (n * 2)%Z s1) as [[[l s2]|]|]; try congruence.
  destruct (dict_of_pairs (pairs l)); discriminate.
Qed.

(** Fuel twice the length of the stream is enough: the decoder is total. *)
Lemma handle_request_total (len : nat) :
  (forall fuel s, length s <= len -> 2 * len + 1 <= fuel ->
                  handle_request fuel s <> None)
  /\ (forall fuel n s, length s <= len -> 2 * len + 2 <= fuel ->
                       handle_requests fuel n s <> None).
Proof.
  induction len as [|len [IH1 IH2]].
  - assert (H1 : forall fuel s, length s <= 0 -> 1 <= fuel ->
                                handle_request fuel s <> None).
    { intros [|fuel] s Hs Hf; [lia|]. destruct s; [|simpl in Hs; lia].
      rewrite handle_request_S. discriminate. }
    split; [intros; apply H1; lia|].
    intros [|fuel] n s Hs Hf; [lia|]. rewrite handle_requests_S.
    destruct (n <=? 0)%Z; [discriminate|].
    destruct s; [|simpl in Hs; lia].
    destruct fuel; [lia|]. rewrite handle_request_S. discriminate.
  - assert (H1 : forall fuel s, length s <= S len -> 2 * S len + 1 <= fuel ->
                                handle_request fuel s <> None).
    { intros [|fuel] s Hs Hf; [lia|]. rewrite handle_request_S.
      destruct s as [|c s']; [discriminate|]. simpl in Hs.
      destruct (handlers c) as [[]|]; try discriminate.
      - apply handle_array_total. intros n s1 Hl. apply IH2; lia.
      - apply handle_dict_total. intros n s1 Hl. apply IH2; lia. }
    split; [assumption|].
    intros [|fuel] n s Hs Hf; [lia|]. rewrite handle_requests_S.
    destruct (n <=? 0)%Z; [discriminate|].
    pose proof (H1 fuel s Hs ltac:(lia)) as Hr.
    destruct (handle_request fuel s) as [[[v s1]|]|] eqn:E1;
      [|discriminate|congruence].
    apply (proj1 (handle_request_consumes fuel)) in E1.
    pose proof (IH2 fuel (n - 1)%Z s1 ltac:(lia) ltac:(lia)) as Hrs.
    destruct (handle_requests fuel (n - 1) s1) as [[[vs s2]|]|];
      congruence || discriminate.
Qed.

(** [decode] never runs out of fuel. *)
Lemma decode_total (s : bytes) : decode s <> None.
Proof.
  unfold decode. apply (proj1 (handle_request_total (length s))); lia.
Qed.

(** A result obtained with some fuel is the result of [decode]. *)
Lemma decode_complete (fuel : nat) (s : bytes) (r : outcome (value * bytes)) :
  handle_request fuel s = Some r -> decode s = Some r.
Proof.
  intros H. pose proof (decode_total s) as Ht. unfold decode in *.
  destruct (Nat.le_ge_cases fuel (2 * length s + 1)) as [Hle | Hge].
  - apply (proj1 (handle_request_mono fuel) _ s r Hle H).
  - destruct (handle_request (2 * length s + 1) s) as [r'|] eqn:E; [|congruence].
    rewrite (proj1 (handle_request_mono _) fuel s r' Hge E) in H. assumption.
Qed.

(** ** Round trip *)

Lemma distinct_keys_NoDup (ks : list value) :
  forallb hashable ks = true -> distinct_keys ks = true -> NoDup ks.
Proof.
  induction ks as [|k ks IH]; simpl; intros Hh Hd; [constructor|].
  apply andb_true_iff in Hh as [Hk Hh]. apply andb_true_iff in Hd as [Hn Hd].
  constructor; [|auto].
  intros Hin. apply negb_true_iff in Hn.
  assert (E : existsb (key_eqb k) ks = true).
  { apply existsb_exists. exists k. split; [assumption|].
    apply key_eqb_refl; assumption. }
  congruence.
Qed.

Lemma str_of_int_minus_one : str_of_int (-1) = b "-1".
Proof. reflexivity. Qed.

Lemma firstn_skipn_payload (s rest : bytes) :
  read (Z.of_nat (length s) + 2) (s ++ CRLF ++ rest) = Ok (s ++ CRLF, rest).
Proof.
  unfold read.
  destruct (Z.eqb_spec (Z.of_nat (length s) + 2) (-1)) as [E|_]; [lia|].
  destruct (Z.ltb_spec (Z.of_nat (length s) + 2) (-1)) as [E|_]; [lia|].
  replace (Z.to_nat (Z.of_nat (length s) + 2)) with (length (s ++ CRLF) + 0)
    by (rewrite length_app; simpl; lia).
  rewrite (app_assoc s CRLF rest), firstn_app_2, skipn_app.
  rewrite skipn_all2 by lia. simpl.
  replace (length (s ++ CRLF) + 0 - length (s ++ CRLF)) with 0 by lia.
  rewrite app_nil_r. reflexivity.
Qed.

Lemma drop_last2_crlf (s : bytes) : drop_last2 (s ++ CRLF) = s.
Proof.
  unfold drop_last2. rewrite length_app. simpl.
  replace (length s + 2 - 2) with (length s + 0) by lia.
  rewrite firstn_app_2. simpl. apply app_nil_r.
Qed.

Lemma handle_string_bulk (s rest : bytes) :
  utf8_valid s = true ->
  handle_string (str_of_int (Z.of_nat (length s)) ++ CRLF ++ s ++ CRLF ++ rest)
  = Ok (PStr s, rest).
Proof.
  intros U. unfold handle_string. rewrite read_int_line_str_of_int.
  destruct (Z.eqb_spec (Z.of_nat (length s)) (-1)) as [E|_]; [lia|].
  rewrite firstn_skipn_payload, drop_last2_crlf, U. reflexivity.
Qed.

Lemma handle_string_null (rest : bytes) :
  handle_string (b "-1" ++ CRLF ++ rest) = Ok (PNone, rest).
Proof.
  unfold handle_string. rewrite <- str_of_int_minus_one, read_int_line_str_of_int.
  reflexivity.
Qed.

Lemma handle_requests_nil (fuel : nat) (s : bytes) :
  handle_requests fuel 0 s = Some (Ok ([], s)).
Proof. destruct fuel; reflexivity. Qed.

(** A sequence of values that are each read back is read back as a whole by
    the list comprehension. *)
Lemma handle_requests_flat (l : list value) :
  Forall reads_back l ->
  exists fuel, forall fuel' rest,
      fuel <= fuel' ->
      handle_requests fuel' (Z.of_nat (length l)) (flat_map _write l ++ rest)
      = Some (Ok (l, rest)).
Proof.
  induction 1 as [|v l [f1 Hv] _ [f2 IH]].
  - exists 0. intros fuel' rest _. apply handle_requests_nil.
  - exists (S (Nat.max f1 f2)). intros [|fuel'] rest Hle; [lia|].
    rewrite handle_requests_S.
    destruct (Z.leb_spec (Z.of_nat (length (v :: l))) 0) as [E|_];
      [simpl in E; lia|].
    simpl flat_map. rewrite <- app_assoc, Hv by lia.
    replace (Z.of_nat (length (v :: l)) - 1)%Z with (Z.of_nat (length l))
      by (simpl length; lia).
    rewrite IH by lia. reflexivity.
Qed.

Lemma write_entries_flat (d : list (value * value)) :
  flat_map (fun e => let '(key, item) := e in _write key ++ _write item) d
  = flat_map _write (flat_map (fun e => [fst e; snd e]) d).
Proof.
  induction d as [|[k v] d IH]; simpl; [reflexivity|].
  rewrite IH, <- app_assoc. reflexivity.
Qed.

Lemma flat_entries_length (d : list (value * value)) :
  length (flat_map (fun e => [fst e; snd e]) d) = 2 * length d.
Proof. induction d as [|[k v] d IH]; simpl; lia. Qed.

Lemma reads_back_entries (d : list (value * value)) :
  Forall (fun e => reads_back (fst e) /\ reads_back (snd e)) d ->
  Forall reads_back (flat_map (fun e => [fst e; snd e]) d).
Proof.
  induction 1 as [|[k v] d [Hk Hv] _ IH]; simpl; auto.
Qed.

Lemma reads_back_value (v : value) :
  is_python v = true -> line_errors v = true -> reads_back v.
Proof.
  induction v as [ | n | s | m | l IH | d IH ] using value_ind;
    intros Hp Hl.
  - exists 1. intros [|fuel'] rest Hle; [lia|].
    change (_write PNone ++ rest) with ("$"%char :: b "-1" ++ CRLF ++ rest).
    rewrite handle_request_S. cbn [handlers].
    rewrite handle_string_null. reflexivity.
  - exists 1. intros [|fuel'] rest Hle; [lia|].
    change (_write (PInt n) ++ rest)
      with (":"%char :: (str_of_int n ++ CRLF) ++ rest).
    rewrite <- app_assoc, handle_request_S. cbn [handlers].
    unfold handle_integer. rewrite read_int_line_str_of_int. reflexivity.
  - exists 1. intros [|fuel'] rest Hle; [lia|].
    change (_write (PStr s) ++ rest)
      with ("$"%char :: (str_of_int (Z.of_nat (length s)) ++ CRLF ++ s ++ CRLF) ++ rest).
    rewrite <- !app_assoc, handle_request_S. cbn [handlers].
    rewrite handle_string_bulk by exact Hp. reflexivity.
  - exists 1. intros [|fuel'] rest Hle; [lia|].
    change (_write (PError m) ++ rest) with ("-"%char :: (m ++ CRLF) ++ rest).
    rewrite <- app_assoc, handle_request_S. cbn [handlers].
    unfold handle_error. simpl in Hp, Hl.
    rewrite read_text_line_app by assumption. reflexivity.
  - assert (Hall : Forall reads_back l).
    { simpl in Hp, Hl. rewrite forallb_forall in Hp, Hl.
      rewrite Forall_forall in *. intros v Hin. apply IH; auto. }
    destruct (handle_requests_flat l Hall) as [f Hf].
    exists (S f). intros [|fuel'] rest Hle; [lia|].
    change (_write (PList l) ++ rest)
      with ("*"%char :: (str_of_int (Z.of_nat (length l)) ++ CRLF
                           ++ flat_map _write l) ++ rest).
    rewrite <- !app_assoc, handle_request_S. cbn [handlers].
    unfold handle_array. rewrite read_int_line_str_of_int, Hf by lia.
    reflexivity.
  - simpl in Hp, Hl.
    apply andb_true_iff in Hp as [Hp Hdist]. apply andb_true_iff in Hp as [Hp Hhash].
    assert (Hall : Forall reads_back (flat_map (fun e => [fst e; snd e]) d)).
    { apply reads_back_entries. rewrite forallb_forall in Hp, Hl.
      rewrite Forall_forall in *. intros e Hin.
      specialize (IH e Hin). specialize (Hp e Hin). specialize (Hl e Hin).
      apply andb_true_iff in Hp as [? ?]. apply andb_true_iff in Hl as [? ?].
      destruct IH; auto. }
    destruct (handle_requests_flat _ Hall) as [f Hf].
    exists (S f). intros [|fuel'] rest Hle; [lia|].
    change (_write (PDict d) ++ rest)
      with ("%"%char :: (str_of_int (Z.of_nat (length d)) ++ CRLF
             ++ flat_map (fun e => let '(key, item) := e in _write key ++ _write item) d)
             ++ rest).
    rewrite <- !app_assoc, handle_request_S. cbn [handlers].
    unfold handle_dict. rewrite read_int_line_str_of_int, write_entries_flat.
    replace (Z.of_nat (length d) * 2)%Z
      with (Z.of_nat (length (flat_map (fun e => [fst e; snd e]) d)))
      by (rewrite flat_entries_length; lia).
    rewrite Hf by lia. rewrite pairs_flat.
    unfold dict_of_pairs. rewrite Hhash.
    rewrite set_all_rebuild
      by (simpl; apply distinct_keys_NoDup; assumption).
    reflexivity.
Qed.

(** A value that satisfies the two conditions is read back by [decode]. *)
Lemma wire_value_round_trip (v : value) :
  is_python v = true -> line_errors v = true -> round_trip v.
Proof.
  intros Hp Hl rest. destruct (reads_back_value v Hp Hl) as [fuel Hf].
  apply (decode_complete fuel). apply Hf. lia.
Qed.

(** *** What comes off the wire can be sent again *)

Lemma rstrip_nil_iff (l : bytes) :
  rstrip l = [] <-> forallb (fun c => Ascii.eqb c CR || Ascii.eqb c LF) l = true.
Proof.
  induction l as [|c l IH]; simpl; [tauto|].
  destruct (rstrip l) as [|c' t] eqn:E.
  - destruct (Ascii.eqb c CR || Ascii.eqb c LF); simpl.
    + rewrite <- IH. tauto.
    + split; discriminate.
  - rewrite andb_true_iff, <- IH. split; [discriminate|]. intros [_ H].
    discriminate.
Qed.

Lemma rstrip_idempotent (l : bytes) : rstrip (rstrip l) = rstrip l.
Proof.
  induction l as [|c l IH]; simpl; [reflexivity|].
  destruct (rstrip l) as [|c' t] eqn:E.
  - destruct (Ascii.eqb c CR || Ascii.eqb c LF) eqn:Ec; simpl; [reflexivity|].
    rewrite Ec. reflexivity.
  - change (rstrip (c :: c' :: t))
      with (match rstrip (c' :: t) with
            | [] => if Ascii.eqb c CR || Ascii.eqb c LF then [] else [c]
            | t' => c :: t'
            end).
    rewrite IH. reflexivity.
Qed.

(** The line feeds of a line are at its end, where [rstrip] removes them. *)
Lemma readline_rstrip_no_lf (s : bytes) : no_lf (rstrip (fst (readline s))) = true.
Proof.
  unfold no_lf. induction s as [|c s IH]; simpl; [reflexivity|].
  destruct (Ascii.eqb c LF) eqn:Ec.
  - simpl. rewrite Ec, orb_true_r. reflexivity.
  - destruct (readline s) as [l r]. simpl in *.
    destruct (rstrip l) as [|c' t].
    + destruct (Ascii.eqb c CR || Ascii.eqb c LF); simpl; [reflexivity|].
      rewrite Ec. reflexivity.
    + simpl in *. rewrite Ec. simpl. exact IH.
Qed.

Lemma read_text_line_ok (s text r : bytes) :
  read_text_line s = Ok (text, r) -> utf8_valid text = true /\ line_text text = true.
Proof.
  unfold read_text_line. pose proof (readline_rstrip_no_lf s) as Hn.
  destruct (readline s) as [line rest]. simpl in Hn.
  destruct (utf8_valid (rstrip line)) eqn:U; intros H; inversion H; subst.
  split; [assumption|]. unfold line_text. rewrite Hn, rstrip_idempotent.
  apply bytes_eqb_refl.
Qed.

Lemma NoDup_distinct_keys (ks : list value) : NoDup ks -> distinct_keys ks = true.
Proof.
  induction 1 as [|k ks Hnot _ IH]; simpl; [reflexivity|].
  rewrite IH, andb_true_r. apply negb_true_iff.
  destruct (existsb (key_eqb k) ks) eqn:E; [|reflexivity].
  apply existsb_exists in E as (k' & Hin & Hk). apply key_eqb_eq in Hk.
  subst. contradiction.
Qed.

Lemma dict_set_entries (P : value -> Prop) (d : dict) (k v : value) :
  P k -> P v ->
  Forall (fun e => P (fst e) /\ P (snd e)) d ->
  Forall (fun e => P (fst e) /\ P (snd e)) (dict_set k v d).
Proof.
  intros Hk Hv. induction 1 as [|[k' v'] d [Hk' Hv'] Hd IH]; simpl.
  - constructor; [split; assumption|constructor].
  - destruct (key_eqb k k'); constructor; simpl; auto.
Qed.

Lemma set_all_entries (P : value -> Prop) (ps : list (value * value)) (d : dict) :
  Forall (fun e => P (fst e) /\ P (snd e)) ps ->
  Forall (fun e => P (fst e) /\ P (snd e)) d ->
  Forall (fun e => P (fst e) /\ P (snd e)) (set_all ps d).
Proof.
  intros Hps. revert d. induction Hps as [|[k v] ps [Hk Hv] _ IH]; intros d Hd.
  - exact Hd.
  - apply IH. apply dict_set_entries; assumption.
Qed.

Lemma pairs_entries (P : value -> Prop) (l : list value) :
  Forall P l -> Forall (fun e => P (fst e) /\ P (snd e)) (pairs l).
Proof.
  induction l as [| x | x y l IH] using list_ind2; intros H.
  - constructor.
  - constructor.
  - rewrite pairs_cons2. inversion H as [|? ? Hx H']; subst.
    inversion H' as [|? ? Hy H'']; subst. constructor; auto.
Qed.

(** The values that can be sent again: those [C1_round_trip] is about. *)
Lemma decoded_dict_ok (l : list value) (d : dict) :
  Forall (fun v => is_python v = true /\ line_errors v = true) l ->
  dict_of_pairs (pairs l) = Ok d ->
  is_python (PDict d) = true /\ line_errors (PDict d) = true.
Proof.
  intros Hl. unfold dict_of_pairs.
  destruct (forallb hashable (map fst (pairs l))) eqn:Hh; [|discriminate].
  intros H; inversion H; subst d. clear H.
  pose proof (set_all_ok (pairs l) [] Hh (conj (NoDup_nil _) eq_refl)) as [Hn Hk].
  pose proof (set_all_entries _ (pairs l) [] (pairs_entries _ l Hl)
                (Forall_nil _)) as He.
  simpl. rewrite Hk, (NoDup_distinct_keys _ Hn), !andb_true_r.
  rewrite !forallb_forall. rewrite Forall_forall in He.
  split; intros e Hin; destruct (He e Hin) as [[H1 H2] [H3 H4]];
    apply andb_true_iff; auto.
Qed.

(** Every value the decoder returns satisfies the conditions of the round
    trip: it can be written and is then read back as itself. *)
Lemma decoded_value_ok (fuel : nat) :
  (forall s v r,
      handle_request fuel s = Some (Ok (v, r)) ->
      is_python v = true /\ line_errors v = true)
  /\ (forall n s l r,
         handle_requests fuel n s = Some (Ok (l, r)) ->
         Forall (fun v => is_python v = true /\ line_errors v = true) l).
Proof.
  induction fuel as [|fuel [IH1 IH2]].
  - split; [discriminate|]. intros n s l r. rewrite handle_requests_0.
    destruct (n <=? 0)%Z; intros H; inversion H; subst. constructor.
  - split.
    + intros s v r. rewrite handle_request_S.
      destruct s as [|c s']; [discriminate|].
      destruct (handlers c) as [[]|]; intros H; try discriminate.
      * inversion H as [H']. unfold handle_simple_string in H'.
        destruct (read_text_line s') as [[t r']|] eqn:E; inversion H'; subst.
        apply read_text_line_ok in E as [U _]. simpl. auto.
      * inversion H as [H']. unfold handle_error in H'.
        destruct (read_text_line s') as [[t r']|] eqn:E; inversion H'; subst.
        apply read_text_line_ok in E as [U L]. simpl. auto.
      * inversion H as [H']. unfold handle_integer in H'.
        destruct (read_int_line s') as [[t r']|]; inversion H'; subst.
        simpl. auto.
      * inversion H as [H']. unfold handle_string in H'.
        destruct (read_int_line s') as [[n s1]|]; [|discriminate].
        destruct (n =? -1)%Z; [inversion H'; subst; simpl; auto|].
        destruct (read (n + 2) s1) as [[data s2]|]; [|discriminate].
        destruct (utf8_valid (drop_last2 data)) eqn:U; inversion H'; subst.
        simpl. auto.
      * apply handle_array_inv in H as (n & s1 & l & _ & E & ->).
        apply IH2 in E. simpl. rewrite !forallb_forall.
        rewrite Forall_forall in E. split; intros x Hx; apply (E x Hx).
      * apply handle_dict_inv in H as (n & s1 & l & d & _ & E & D & ->).
        apply IH2 in E. apply (decoded_dict_ok l d E D).
    + intros n s l r. rewrite handle_requests_S.
      destruct (n <=? 0)%Z; [intros H; inversion H; subst; constructor|].
      destruct (handle_request fuel s) as [[[v s1]|]|] eqn:E1; try discriminate.
      destruct (handle_requests fuel (n - 1) s1) as [[[vs s2]|]|] eqn:E2;
        try discriminate.
      intros H; inversion H; subst. constructor; eauto.
Qed.

Lemma decoded_value_round_trip (s : bytes) (v : value) (r : bytes) :
  decode s = Some (Ok (v, r)) -> round_trip v.
Proof.
  intros H. destruct (proj1 (decoded_value_ok _) _ _ _ H) as [Hp Hl].
  apply wire_value_round_trip; assumption.
Qed.

(** An [Error] is read back exactly when its message fits on one line. *)
Lemma readline_stops_at_lf (m x : bytes) :
  no_lf m = false -> exists r, snd (readline (m ++ x)) = r ++ x.
Proof.
  unfold no_lf. induction m as [|c m IH]; simpl; [discriminate|].
  destruct (Ascii.eqb c LF) eqn:Ec; simpl.
  - intros _. exists m. reflexivity.
  - intros H. destruct (IH H) as [r Hr]. exists r.
    destruct (readline (m ++ x)). simpl in *. assumption.
Qed.

Lemma error_round_trip_iff (m : bytes) :
  utf8_valid m = true -> (round_trip (PError m) <-> line_text m = true).
Proof.
  intros U. split.
  - intros H. specialize (H []). rewrite app_nil_r in H.
    unfold decode in H.
    replace (2 * length (_write (PError m)) + 1)
      with (S (2 * length (_write (PError m)))) in H by lia.
    change (_write (PError m)) with ("-"%char :: m ++ CRLF) in H at 2.
    rewrite handle_request_S in H. cbn [handlers] in H.
    unfold handle_error, read_text_line in H.
    destruct (no_lf m) eqn:Hn.
    + pose proof (readline_app m [] Hn) as Hl. rewrite app_nil_r in Hl.
      rewrite Hl, rstrip_app_crlf in H.
      destruct (utf8_valid (rstrip m)); [|discriminate].
      injection H as Hm. unfold line_text. apply andb_true_iff.
      split; [exact Hn | apply bytes_eqb_eq; exact Hm].
    + destruct (readline_stops_at_lf m CRLF Hn) as [r Hr].
      destruct (readline (m ++ CRLF)) as [line rest]. simpl in Hr. subst rest.
      destruct (utf8_valid (rstrip line)); [|discriminate].
      injection H as Hm Hrest. destruct r; discriminate.
  - intros L. apply wire_value_round_trip; [exact U | exact L].
Qed.

(** C1, as amended: a value of the decoder's types (None, an integer, a
    string, an Error, a list, a dictionary) whose Error messages each fit on
    one line (no line feed inside, no carriage return or line feed at the
    end) is read back from its encoding, and the decoder stops exactly where
    the encoding ends: what follows in the stream is left untouched. *)
Theorem C1_round_trip (v : value) :
  is_python v = true -> line_errors v = true -> round_trip v.
Proof. exact (wire_value_round_trip v). Qed.

Lemma C1_round_trip_witness :
  is_python sample_value = true /\ line_errors sample_value = true
  /\ round_trip sample_value.
Proof.
  split; [reflexivity|]. split; [reflexivity|].
  apply (C1_round_trip sample_value); reflexivity.
Defined.

Example newline_error_is_a_response :
  respond upper_ascii [] (PList [PStr (b "a" ++ [LF] ++ b "b")])
  = ([], Ok newline_error).
Proof. reflexivity. Qed.

(** C1 fails for an Error whose message holds a line feed: the decoder stops
    at the line feed, returns the first part of the message and leaves the
    remainder of the frame in the stream. *)
Lemma C1_counterexample :
  is_python newline_error = true
  /\ decode (_write newline_error)
     = Some (Ok (PError (b "Unrecognized command: A"), b "B" ++ CRLF))
  /\ ~ round_trip newline_error.
Proof.
  split; [reflexivity|]. split; [reflexivity|].
  intros H. specialize (H []). vm_compute in H. discriminate.
Qed.

(** ** The store *)

Lemma dict_pop_spec (d : dict) (k : value) :
  fst (dict_pop k d) = dict_get d k.
Proof.
  induction d as [|[k' v'] d IH]; simpl; [reflexivity|].
  destruct (key_eqb k k'); [reflexivity|].
  destruct (dict_pop k d); simpl in *. assumption.
Qed.

Lemma dict_pop_keys (d : dict) (k k' : value) :
  In k' (map fst (snd (dict_pop k d))) -> In k' (map fst d).
Proof.
  induction d as [|[k2 v2] d IH]; simpl; [tauto|].
  destruct (key_eqb k k2); simpl; [tauto|].
  destruct (dict_pop k d); simpl in *. tauto.
Qed.

(** In a well-formed store the key that was popped is gone. *)
Lemma dict_pop_gone (d : dict) (k : value) :
  hashable k = true -> NoDup (map fst d) ->
  dict_get (snd (dict_pop k d)) k = None.
Proof.
  intros Hk. induction d as [|[k2 v2] d IH]; simpl; intros Hn; [reflexivity|].
  inversion Hn as [|? ? Hnot Hn']; subst.
  destruct (key_eqb k k2) eqn:E; simpl.
  - apply key_eqb_eq in E. subst k2. apply dict_get_none. assumption.
  - specialize (IH Hn'). destruct (dict_pop k d); simpl in *. rewrite E.
    assumption.
Qed.

(** What [delete] does on a well-formed store: the key is removed, and the
    answer is 1 exactly when the key held a value other than [None]. *)
Lemma delete_spec (kv : store) (k : value) :
  hashable k = true -> NoDup (map fst kv) ->
  exists kv',
    delete kv k
    = (kv', Ok (PInt (match dict_get kv k with
                      | Some PNone | None => 0
                      | Some _ => 1
                      end)))
    /\ get kv' k = (kv', Ok PNone).
Proof.
  intros Hk Hn. unfold delete, get. rewrite Hk.
  pose proof (dict_pop_spec kv k) as Hs. pose proof (dict_pop_gone kv k Hk Hn) as Hg.
  destruct (dict_pop k kv) as [r kv']. simpl in *. subst r. exists kv'.
  rewrite Hg. split; [|reflexivity].
  destruct (dict_get kv k) as [[]|]; reflexivity.
Qed.

Lemma dict_pop_ok (d : dict) (k : value) : dict_ok d -> dict_ok (snd (dict_pop k d)).
Proof.
  unfold dict_ok. induction d as [|[k2 v2] d IH]; simpl; [tauto|].
  intros [Hn Hh]. inversion Hn as [|? ? Hnot Hn']; subst.
  apply andb_true_iff in Hh as [Hh2 Hh].
  destruct (key_eqb k k2); simpl; [tauto|].
  specialize (IH (conj Hn' Hh)).
  pose proof (dict_pop_keys d k k2) as Hsub.
  destruct (dict_pop k d) as [r d']; simpl in *. destruct IH as [IH1 IH2].
  rewrite Hh2, IH2. split; [|reflexivity]. constructor; auto.
Qed.

Lemma mset_loop_ok (ps : list (value * value)) (kv : store) :
  dict_ok kv -> dict_ok (fst (mset_loop kv ps)).
Proof.
  revert kv. induction ps as [|[k v] ps IH]; simpl; intros kv Hok; [assumption|].
  destruct (hashable k) eqn:Hk; [|assumption].
  apply IH. apply dict_set_ok; assumption.
Qed.

(** The commands keep the store a well-formed dictionary, so every store
    the server reaches from the empty one is well formed. *)
Lemma call_keeps_dict_ok (c : command) (kv : store) (args : list value) :
  dict_ok kv -> dict_ok (fst (call c kv args)).
Proof.
  intros Hok. destruct c; simpl.
  - destruct args as [|k [|? ?]]; try assumption.
    unfold get. destruct (hashable k); assumption.
  - destruct args as [|k [|v [|? ?]]]; try assumption.
    unfold set. destruct (hashable k) eqn:Hk; simpl; [|assumption].
    apply dict_set_ok; assumption.
  - destruct args as [|k [|? ?]]; try assumption.
    unfold delete. destruct (hashable k); [|assumption].
    pose proof (dict_pop_ok kv k Hok) as Hp.
    destruct (dict_pop k kv); simpl in *. assumption.
  - destruct args; [|assumption]. simpl. split; [constructor|reflexivity].
  - unfold mget. destruct (mget_values kv args); assumption.
  - unfold mset. pose proof (mset_loop_ok (pairs args) kv Hok) as Hm.
    destruct (mset_loop kv (pairs args)) as [kv' [e|]]; simpl in *; assumption.
Qed.

Lemma get_response_keeps_dict_ok (up : bytes -> bytes) (kv : store) (data : value) :
  dict_ok kv -> dict_ok (fst (get_response up kv data)).
Proof.
  intros Hok.
  destruct data as [ | | | | [|[ | | name | | | ] args] | ]; simpl; try assumption.
  destruct (get_commands (up name)); [|assumption].
  apply call_keeps_dict_ok. assumption.
Qed.

(** C3 fails on a key that holds [None]: after [SET k] with a null value the
    key is in the store, and [DELETE k] removes it but answers 0. *)
Theorem C3_delete_of_null_value :
  let k := PStr (b "k") in
  let kv := fst (set [] k PNone) in
  In k (map fst kv)
  /\ delete kv k = ([], Ok (PInt 0))
  /\ connection_handler upper_ascii []
       (_write (PList [PStr (b "SET"); k; PNone]) ++ request [b "DELETE"; b "k"])
     = Some ([], _write (PInt 1) ++ _write (PInt 0), PeerDisconnected).
Proof.
  cbv zeta. split; [left; reflexivity|]. split; [reflexivity|].
  vm_compute. reflexivity.
Qed.

Lemma mset_loop_set_all (ps : list (value * value)) (kv : store) :
  forallb hashable (map fst ps) = true -> mset_loop kv ps = (set_all ps kv, None).
Proof.
  revert kv. induction ps as [|[k v] ps IH]; simpl; intros kv Hh; [reflexivity|].
  apply andb_true_iff in Hh as [Hk Hh]. rewrite Hk. apply IH. assumption.
Qed.

Lemma pairs_length {A : Type} (l : list A) : length (pairs l) = length l / 2.
Proof.
  induction l as [| x | x y l IH] using list_ind2; try reflexivity.
  rewrite pairs_cons2. simpl length. rewrite IH.
  change (S (S (length l))) with (1 * 2 + length l).
  rewrite Nat.div_add_l by lia. reflexivity.
Qed.

(** The [i]-th pair of [zip(items[::2], items[1::2])] is made of the items
    [2i] and [2i+1]; an item without a partner is in no pair. *)
Lemma pairs_nth {A : Type} (l : list A) (i : nat) (x y : A) :
  nth_error (pairs l) i = Some (x, y)
  <-> nth_error l (2 * i) = Some x /\ nth_error l (2 * i + 1) = Some y.
Proof.
  revert i. induction l as [| a | a c l IH] using list_ind2; intros i.
  - destruct i; simpl; split; try discriminate; intros [? ?]; discriminate.
  - destruct i as [|i]; simpl; split; try discriminate.
    + intros [_ ?]; discriminate.
    + replace (i + S (i + 0)) with (S (2 * i)) by lia. simpl.
      destruct (2 * i); intros [? ?]; discriminate.
  - rewrite pairs_cons2. destruct i as [|i].
    + simpl. split.
      * intros H; inversion H; auto.
      * intros [H1 H2]; inversion H1; inversion H2; reflexivity.
    + replace (2 * S i) with (S (S (2 * i))) by lia.
      replace (S (S (2 * i)) + 1) with (S (S (2 * i + 1))) by lia.
      simpl nth_error. apply IH.
Qed.

(** C5: [MSET] on [n] arguments assigns the [n/2] pairs made of the
    arguments [2i] and [2i+1], in that order, and answers [n/2]; with an odd
    number of arguments the last one is in no pair and is dropped without an
    error.  (The keys are hashable, as every string is.) *)
Theorem C5_mset (kv : store) (items : list value) :
  forallb hashable (map fst (pairs items)) = true ->
  mset kv items
  = (set_all (pairs items) kv, Ok (PInt (Z.of_nat (length items) / 2)))
  /\ length (pairs items) = length items / 2
  /\ (forall i k v,
         nth_error (pairs items) i = Some (k, v)
         <-> nth_error items (2 * i) = Some k
             /\ nth_error items (2 * i + 1) = Some v)
  /\ (forall k,
         hashable k = true ->
         dict_get (set_all (pairs items) kv) k
         = match dict_get (List.rev (pairs items)) k with
           | Some v => Some v
           | None => dict_get kv k
           end)
  /\ (forall x, Nat.even (length items) = true ->
                mset kv (items ++ [x]) = mset kv items).
Proof.
  intros Hh. split; [|split; [|split; [|split]]].
  - unfold mset. rewrite mset_loop_set_all by assumption. reflexivity.
  - apply pairs_length.
  - intros i k v. apply pairs_nth.
  - intros k Hk. apply dict_get_set_all. assumption.
  - intros x Hev. unfold mset.
    assert (Hp : pairs (items ++ [x]) = pairs items).
    { clear Hh. induction items as [| a | a c l IH] using list_ind2.
      - reflexivity.
      - discriminate.
      - change ((a :: c :: l) ++ [x]) with (a :: c :: (l ++ [x])).
        rewrite !pairs_cons2. f_equal. apply IH. exact Hev. }
    rewrite Hp. rewrite length_app. simpl length.
    apply Nat.even_spec in Hev. destruct Hev as [m Hm]. rewrite Hm.
    replace (Z.of_nat (2 * m + 1) / 2)%Z with (Z.of_nat (2 * m) / 2)%Z.
    + reflexivity.
    + rewrite !Nat2Z.inj_add, !Nat2Z.inj_mul. simpl Z.of_nat.
      rewrite (Z.mul_comm 2), Z.div_add_l by lia.
      rewrite Z.div_mul by lia. rewrite Z.div_small by lia. lia.
Qed.

Lemma C5_mset_witness :
  forallb hashable (map fst (pairs sample_items)) = true
  /\ mset [] sample_items
     = ([(PStr (b "b"), PStr (b "2")); (PStr (b "c"), PStr (b "3"))], Ok (PInt 2)).
Proof.
  split; [reflexivity|].
  exact (proj1 (C5_mset [] sample_items eq_refl)).
Defined.

(** C6: [FLUSH] answers the number of entries the store held and leaves it
    empty, so a [FLUSH] that follows at once answers 0, and every key then
    reads as [None]. *)
Theorem C6_flush (kv : store) :
  call FLUSH kv [] = ([], Ok (PInt (Z.of_nat (length kv))))
  /\ call FLUSH (fst (call FLUSH kv [])) [] = ([], Ok (PInt 0))
  /\ forall k, dict_get (fst (call FLUSH kv [])) k = None.
Proof.
  split; [reflexivity|]. split; reflexivity.
Qed.

(** C8: [GET] of a key that is not in the store answers [None]; [SET k v]
    answers 1, and the [GET k] that follows answers [v].  (The key is
    hashable, as every string is.) *)
Theorem C8_get_set (kv : store) (k v : value) :
  hashable k = true ->
  (~ In k (map fst kv) -> get kv k = (kv, Ok PNone))
  /\ exists kv', set kv k v = (kv', Ok (PInt 1)) /\ get kv' k = (kv', Ok v).
Proof.
  intros Hk. unfold get, set. rewrite Hk. split.
  - intros Habs. rewrite dict_get_none by assumption. reflexivity.
  - exists (dict_set k v kv). rewrite dict_get_set_same by assumption.
    split; reflexivity.
Qed.

Lemma C8_get_set_witness :
  hashable (PStr (b "a")) = true
  /\ get [] (PStr (b "a")) = ([], Ok PNone)
  /\ exists kv', set [] (PStr (b "a")) (PStr (b "1")) = (kv', Ok (PInt 1))
                 /\ get kv' (PStr (b "a")) = (kv', Ok (PStr (b "1"))).
Proof.
  split; [reflexivity|].
  destruct (C8_get_set [] (PStr (b "a")) (PStr (b "1")) eq_refl) as [H1 H2].
  split; [apply H1; intros [] | exact H2].
Defined.

(** ** The dispatcher *)

Lemma mget_values_raise (kv : store) (keys : list value) (e : exn) :
  mget_values kv keys = Raise e -> e = TypeError.
Proof.
  induction keys as [|k keys IH]; simpl; [discriminate|].
  destruct (hashable k); [|intros H; inversion H; reflexivity].
  destruct (mget_values kv keys); [discriminate|].
  intros H; inversion H; subst. apply IH. reflexivity.
Qed.

Lemma mset_loop_raise (ps : list (value * value)) (kv kv' : store) (e : exn) :
  mset_loop kv ps = (kv', Some e) -> e = TypeError.
Proof.
  revert kv. induction ps as [|[k v] ps IH]; simpl; intros kv; [discriminate|].
  destruct (hashable k); [apply IH|]. intros H; inversion H; reflexivity.
Qed.

(** What a command can do: raise [TypeError], or answer; only [GET] can
    answer something that is neither an integer nor a list, and [GET] leaves
    the store as it is. *)
Lemma call_outcome (c : command) (kv kv' : store) (args : list value)
    (r : outcome value) :
  call c kv args = (kv', r) ->
  match r with
  | Raise e => e = TypeError
  | Ok (PInt _) | Ok (PList _) => True
  | Ok _ => kv' = kv
  end.
Proof.
  destruct c; simpl.
  - destruct args as [|k [|? ?]]; try (intros H; inversion H; reflexivity).
    unfold get. destruct (hashable k); intros H; inversion H; subst;
      [destruct (or_none (dict_get kv' k))|]; auto.
  - destruct args as [|k [|v [|? ?]]]; try (intros H; inversion H; reflexivity).
    unfold set. destruct (hashable k); intros H; inversion H; subst; auto.
  - destruct args as [|k [|? ?]]; try (intros H; inversion H; reflexivity).
    unfold delete. destruct (hashable k).
    + destruct (dict_pop k kv). intros H; inversion H; subst. exact I.
    + intros H; inversion H; reflexivity.
  - destruct args; intros H; inversion H; subst; auto.
  - unfold mget. destruct (mget_values kv args) eqn:E; intros H; inversion H; subst.
    + exact I.
    + eapply mget_values_raise; eassumption.
  - unfold mset. destruct (mset_loop kv (pairs args)) as [kv1 [e|]] eqn:E;
      intros H; inversion H; subst.
    + eapply mset_loop_raise; eassumption.
    + exact I.
Qed.

(** A call whose number of arguments does not fit raises [TypeError] and
    leaves the store as it is. *)
Lemma call_arity (c : command) (kv : store) (args : list value) (n : nat) :
  arity c = Some n -> length args <> n -> call c kv args = (kv, Raise TypeError).
Proof.
  destruct c; simpl; intros H; inversion H; subst; intros Hl;
    try (destruct args as [|? [|? [|? ?]]]; simpl in Hl; try reflexivity; lia).
Qed.

(** C7: [get_response] applies the upper-casing to the first element only.
    The answer and the store are the same for any two upper-casing functions
    that agree on the command name, whatever they do to the arguments; two
    names with the same upper-case form run the same command on the same
    arguments; and [SET] stores the key and the value exactly as they were
    sent. *)
Theorem C7_only_the_command_name_is_upper_cased
    (up : bytes -> bytes) (kv : store) (name : bytes) (args : list value) :
  (forall up' : bytes -> bytes,
      up' name = up name ->
      get_response up' kv (PList (PStr name :: args))
      = get_response up kv (PList (PStr name :: args)))
  /\ (forall name',
         up name' = up name ->
         get_response up kv (PList (PStr name' :: args))
         = get_response up kv (PList (PStr name :: args)))
  /\ (forall c,
         get_commands (up name) = Some c ->
         get_response up kv (PList (PStr name :: args)) = call c kv args)
  /\ (forall k v,
         up name = b "SET" -> hashable k = true ->
         exists kv',
           get_response up kv (PList [PStr name; k; v]) = (kv', Ok (PInt 1))
           /\ In (k, v) kv' /\ get kv' k = (kv', Ok v)).
Proof.
  split; [|split; [|split]].
  - intros up' H. simpl. rewrite H. reflexivity.
  - intros name' H. simpl. rewrite H. reflexivity.
  - intros c H. simpl. rewrite H. reflexivity.
  - intros k v H Hk. simpl. rewrite H. simpl. unfold set, get. rewrite Hk.
    exists (dict_set k v kv).
    pose proof (dict_get_set_same kv k v Hk) as Hg. rewrite Hg.
    split; [reflexivity|]. split; [|reflexivity].
    apply dict_get_in. assumption.
Qed.

Lemma C7_only_the_command_name_is_upper_cased_witness :
  upper_ascii (b "set") = b "SET" /\ hashable (PStr (b "Key")) = true
  /\ get_response upper_ascii [] (PList [PStr (b "set"); PStr (b "Key"); PStr (b "VaLuE")])
     = get_response (fun s => s) [] (PList [PStr (b "SET"); PStr (b "Key"); PStr (b "VaLuE")])
  /\ exists kv',
      get_response upper_ascii []
        (PList [PStr (b "set"); PStr (b "Key"); PStr (b "VaLuE")])
      = (kv', Ok (PInt 1))
      /\ In (PStr (b "Key"), PStr (b "VaLuE")) kv'
      /\ get kv' (PStr (b "Key")) = (kv', Ok (PStr (b "VaLuE"))).
Proof.
  split; [reflexivity|]. split; [reflexivity|].
  destruct (C7_only_the_command_name_is_upper_cased upper_ascii [] (b "set")
              [PStr (b "Key"); PStr (b "VaLuE")]) as (_ & _ & _ & H4).
  split; [reflexivity|].
  exact (H4 (PStr (b "Key")) (PStr (b "VaLuE")) eq_refl eq_refl).
Defined.

(** The case of an argument is kept: after [set Key VaLuE] the key [KEY] is
    still absent. *)
Example arguments_keep_their_case :
  connection_handler upper_ascii []
    (request [b "set"; b "Key"; b "VaLuE"] ++ request [b "get"; b "Key"]
       ++ request [b "GET"; b "KEY"])
  = Some ([(PStr (b "Key"), PStr (b "VaLuE"))],
          _write (PInt 1) ++ _write (PStr (b "VaLuE")) ++ _write PNone,
          PeerDisconnected).
Proof. vm_compute. reflexivity. Qed.

(** C9: a request that is not a list, is the empty list or names no command
    makes [get_response] raise a [CommandError], answered by an [Error], with
    the store as it was; conversely a [CommandError] is raised for such a
    request only, and whenever the response is an [Error] the store is the
    one before the request. *)
Theorem C9_command_error_keeps_the_store
    (up : bytes -> bytes) (kv : store) (data : value) :
  (not_dispatched up data ->
   exists msg,
     get_response up kv data = (kv, Raise (CommandError msg))
     /\ respond up kv data = (kv, Ok (PError msg)))
  /\ (forall kv' msg,
         get_response up kv data = (kv', Raise (CommandError msg)) ->
         kv' = kv /\ not_dispatched up data)
  /\ (forall kv' msg, respond up kv data = (kv', Ok (PError msg)) -> kv' = kv).
Proof.
  assert (Hcall : forall kv' msg,
             get_response up kv data = (kv', Raise (CommandError msg)) ->
             kv' = kv /\ not_dispatched up data).
  { intros kv' msg. destruct data as [ | | | | [|[ | | name | | | ] args] | ];
      simpl; try (intros H; inversion H; subst; split; [reflexivity|exact I]);
      try (intros H; inversion H; fail).
    destruct (get_commands (up name)) as [c|] eqn:E.
    - intros H. apply call_outcome in H. discriminate.
    - intros H; inversion H; subst. split; reflexivity. }
  split; [|split].
  - unfold respond.
    destruct data as [ | | | | [|[ | | name | | | ] args] | ]; simpl;
      try (intros _; eexists; split; reflexivity); try contradiction.
    intros H. rewrite H. eexists; split; reflexivity.
  - exact Hcall.
  - intros kv' msg. unfold respond.
    destruct (get_response up kv data) as [kv1 [resp|e]] eqn:E.
    + intros H; inversion H; subst.
      destruct data as [ | | | | [|[ | | name | | | ] args] | ]; simpl in E;
        try discriminate.
      destruct (get_commands (up name)) as [c|]; [|discriminate].
      apply call_outcome in E. exact E.
    + destruct e; try discriminate. intros H; inversion H; subst.
      apply (Hcall kv' msg eq_refl).
Qed.

Lemma C9_command_error_keeps_the_store_witness :
  not_dispatched upper_ascii (PList [PStr (b "foo"); PStr (b "x")])
  /\ exists msg,
      get_response upper_ascii [(PStr (b "a"), PInt 1)]
        (PList [PStr (b "foo"); PStr (b "x")])
      = ([(PStr (b "a"), PInt 1)], Raise (CommandError msg))
      /\ respond upper_ascii [(PStr (b "a"), PInt 1)]
           (PList [PStr (b "foo"); PStr (b "x")])
         = ([(PStr (b "a"), PInt 1)], Ok (PError msg)).
Proof.
  split; [reflexivity|].
  exact (proj1 (C9_command_error_keeps_the_store upper_ascii
                  [(PStr (b "a"), PInt 1)] (PList [PStr (b "foo"); PStr (b "x")]))
               eq_refl).
Defined.

(** ** The connection loop *)

Lemma serve_request_uncaught (up : bytes -> bytes) (kv : store) (input : bytes)
    (data : value) (rest : bytes) (kv' : store) (e : exn) :
  decode input = Some (Ok (data, rest)) ->
  respond up kv data = (kv', Raise e) ->
  serve_request up kv input = Some (Stop kv' (Uncaught e)).
Proof.
  intros Hd Hr. unfold serve_request. rewrite Hd, Hr. reflexivity.
Qed.

Lemma serve_request_total (up : bytes -> bytes) (kv : store) (input : bytes) :
  serve_request up kv input <> None.
Proof.
  unfold serve_request. pose proof (decode_total input) as H.
  destruct (decode input) as [[[data rest]|e]|]; [| |congruence].
  - destruct (respond up kv data) as [kv' [resp|e]]; discriminate.
  - destruct e; discriminate.
Qed.

Lemma serve_request_reply (up : bytes -> bytes) (kv kv' : store)
    (input rest : bytes) (resp : value) :
  serve_request up kv input = Some (Reply kv' resp rest) ->
  length rest < length input.
Proof.
  unfold serve_request.
  destruct (decode input) as [[[data rest']|e]|] eqn:E; try discriminate.
  - destruct (respond up kv data) as [kv1 [r|e]]; try discriminate.
    intros H; inversion H; subst.
    apply (proj1 (handle_request_consumes _) _ _ _ E).
  - destruct e; discriminate.
Qed.

(** The loop of a connection ends on every stream. *)
Lemma connection_handler_total (up : bytes -> bytes) (kv : store) (input : bytes) :
  connection_handler up kv input <> None.
Proof.
  unfold connection_handler.
  assert (H : forall fuel kv input output,
             length input < fuel -> connection_loop up fuel kv input output <> None).
  { induction fuel as [|fuel IH]; intros kv0 input0 output Hlt; [lia|].
    simpl. pose proof (serve_request_total up kv0 input0) as Ht.
    destruct (serve_request up kv0 input0) as [[kv1 why|kv1 resp rest]|] eqn:E;
      [discriminate| |congruence].
    apply IH. apply serve_request_reply in E. lia. }
  apply H. lia.
Qed.

(** C2, as amended: a recognized command called with a number of arguments
    that does not fit its signature raises [TypeError], which is not a
    [CommandError]: the loop does not catch it, writes no response and
    ends, with the store as it was.  [MGET] and [MSET] take any number of
    arguments. *)
Theorem C2_wrong_arity_is_not_caught
    (up : bytes -> bytes) (kv : store) (name : bytes) (args : list value)
    (c : command) :
  get_commands (up name) = Some c ->
  arity_mismatch c args ->
  get_response up kv (PList (PStr name :: args)) = (kv, Raise TypeError)
  /\ respond up kv (PList (PStr name :: args)) = (kv, Raise TypeError)
  /\ forall input rest,
      decode input = Some (Ok (PList (PStr name :: args), rest)) ->
      serve_request up kv input = Some (Stop kv (Uncaught TypeError))
      /\ ~ answered_by_error up kv input
      /\ forall fuel output,
          connection_loop up (S fuel) kv input output
          = Some (kv, output, Uncaught TypeError).
Proof.
  intros Hc Hm.
  assert (Hg : get_response up kv (PList (PStr name :: args)) = (kv, Raise TypeError)).
  { simpl. rewrite Hc. unfold arity_mismatch in Hm.
    destruct (arity c) as [n|] eqn:Ha; [|contradiction].
    apply (call_arity c kv args n Ha Hm). }
  assert (Hr : respond up kv (PList (PStr name :: args)) = (kv, Raise TypeError)).
  { unfold respond. rewrite Hg. reflexivity. }
  split; [exact Hg|]. split; [exact Hr|].
  intros input rest Hd.
  pose proof (serve_request_uncaught up kv input _ rest kv TypeError Hd Hr) as Hs.
  split; [exact Hs|]. split.
  - intros (kv' & msg & rest' & H). rewrite Hs in H. discriminate.
  - intros fuel output. simpl. rewrite Hs. reflexivity.
Qed.

Lemma C2_wrong_arity_is_not_caught_witness :
  get_commands (upper_ascii (b "get")) = Some GET
  /\ arity_mismatch GET [PStr (b "a"); PStr (b "b")]
  /\ get_response upper_ascii [] (PList [PStr (b "get"); PStr (b "a"); PStr (b "b")])
     = ([], Raise TypeError).
Proof.
  split; [reflexivity|].
  assert (Hm : arity_mismatch GET [PStr (b "a"); PStr (b "b")])
    by (simpl; discriminate).
  split; [exact Hm|].
  exact (proj1 (C2_wrong_arity_is_not_caught upper_ascii [] (b "get")
                  [PStr (b "a"); PStr (b "b")] GET eq_refl Hm)).
Defined.

(** C2 fails on [GET] without argument: no [Error] is written, the
    connection ends, and the [FLUSH] that follows in the stream is never
    run. *)
Lemma C2_counterexample :
  get_commands (upper_ascii (b "GET")) = Some GET
  /\ arity_mismatch GET []
  /\ decode (request [b "GET"] ++ request [b "FLUSH"])
     = Some (Ok (PList [PStr (b "GET")], request [b "FLUSH"]))
  /\ ~ answered_by_error upper_ascii [(PStr (b "a"), PStr (b "1"))]
         (request [b "GET"] ++ request [b "FLUSH"])
  /\ connection_handler upper_ascii [(PStr (b "a"), PStr (b "1"))]
       (request [b "GET"] ++ request [b "FLUSH"])
     = Some ([(PStr (b "a"), PStr (b "1"))], [], Uncaught TypeError).
Proof.
  split; [reflexivity|]. split; [simpl; discriminate|].
  split; [vm_compute; reflexivity|]. split.
  - intros (kv' & msg & rest & H). vm_compute in H. discriminate.
  - vm_compute. reflexivity.
Qed.

Lemma handlers_unknown (tag : ascii) : ~ In tag tags -> handlers tag = None.
Proof.
  intros H. destruct tag as [[] [] [] [] [] [] [] []]; try reflexivity;
    exfalso; apply H; vm_compute; auto 10.
Qed.

Lemma nth_error_update_nth {A : Type} (l : list A) (i j : nat) (x : A) :
  j <> i -> nth_error (update_nth i x l) j = nth_error l j.
Proof.
  revert i j. induction l as [|y l IH]; intros [|i] [|j] H; simpl;
    try reflexivity; try congruence.
  apply IH. congruence.
Qed.

Lemma nth_error_update_nth_same {A : Type} (l : list A) (i : nat) (x y : A) :
  nth_error l i = Some y -> nth_error (update_nth i x l) i = Some x.
Proof.
  revert i. induction l as [|z l IH]; intros [|i]; simpl;
    try discriminate; auto.
Qed.

(** C4: a stream that starts with a byte that is not a tag makes
    [handle_request] raise inside the first [try], which catches
    [Disconnect] only: the connection ends, nothing is written to it, the
    store is as it was, and the other connections of the server are as they
    were. *)
Theorem C4_unknown_tag_closes_the_connection
    (up : bytes -> bytes) (kv : store) (tag : ascii) (stream : bytes) :
  ~ In tag tags ->
  decode (tag :: stream) = Some (Raise (CommandError (b "bad request")))
  /\ serve_request up kv (tag :: stream)
     = Some (Stop kv (Uncaught (CommandError (b "bad request"))))
  /\ connection_handler up kv (tag :: stream)
     = Some (kv, [], Uncaught (CommandError (b "bad request")))
  /\ forall (others : list connection) (i : nat) (c : connection),
      nth_error others i = Some c ->
      closed c = None ->
      pending c = tag :: stream ->
      exists conns',
        server_step up i (Server kv others) = Some (Server kv conns')
        /\ nth_error conns' i
           = Some (Connection (pending c) (sent c)
                     (Some (Uncaught (CommandError (b "bad request")))))
        /\ forall j, j <> i -> nth_error conns' j = nth_error others j.
Proof.
  intros Htag. apply handlers_unknown in Htag.
  assert (Hd : decode (tag :: stream)
               = Some (Raise (CommandError (b "bad request")))).
  { unfold decode. replace (2 * length (tag :: stream) + 1)
      with (S (2 * length (tag :: stream))) by lia.
    rewrite handle_request_S, Htag. reflexivity. }
  assert (Hs : serve_request up kv (tag :: stream)
               = Some (Stop kv (Uncaught (CommandError (b "bad request"))))).
  { unfold serve_request. rewrite Hd. reflexivity. }
  split; [exact Hd|]. split; [exact Hs|]. split.
  - unfold connection_handler. cbn [connection_loop]. rewrite Hs. reflexivity.
  - intros others i c Hi Hc Hp. eexists. split; [|split].
    + unfold server_step. cbn [connections kv_of]. rewrite Hi, Hc, Hp, Hs.
      reflexivity.
    + rewrite Hp. eapply nth_error_update_nth_same. eassumption.
    + intros j Hj. apply nth_error_update_nth. assumption.
Qed.

Lemma C4_unknown_tag_closes_the_connection_witness :
  ~ In "?"%char tags
  /\ connection_handler upper_ascii [(PStr (b "a"), PInt 1)]
       ("?"%char :: request [b "FLUSH"])
     = Some ([(PStr (b "a"), PInt 1)], [],
             Uncaught (CommandError (b "bad request"))).
Proof.
  assert (H : ~ In "?"%char tags).
  { vm_compute. intros H.
    repeat (destruct H as [H | H]; [discriminate|]). exact H. }
  split; [exact H|].
  exact (proj1 (proj2 (proj2
           (C4_unknown_tag_closes_the_connection upper_ascii
              [(PStr (b "a"), PInt 1)] "?"%char (request [b "FLUSH"]) H)))).
Defined.

(** A second connection goes on while the first one is closed by a bad tag. *)
Example scenario_bad_tag_and_second_connection :
  let st := Server [] [Connection (b "?") [] None;
                       Connection (request [b "SET"; b "a"; b "1"]) [] None] in
  option_map (fun st => (kv_of st, connections st))
    (match server_step upper_ascii 0 st with
     | Some st1 => server_step upper_ascii 1 st1
     | None => None
     end)
  = Some ([(PStr (b "a"), PStr (b "1"))],
          [Connection (b "?") [] (Some (Uncaught (CommandError (b "bad request"))));
           Connection [] (_write (PInt 1)) None]).
Proof. vm_compute. reflexivity. Qed.

(** ** Dictionaries with a repeated key *)

Lemma handle_requests_length (fuel : nat) :
  forall n s l r,
    handle_requests fuel n s = Some (Ok (l, r)) -> length l = Z.to_nat n.
Proof.
  induction fuel as [|fuel IH]; intros n s l r.
  - rewrite handle_requests_0. destruct (Z.leb_spec n 0) as [Hn|Hn];
      intros H; inversion H; subst. simpl. lia.
  - rewrite handle_requests_S. destruct (Z.leb_spec n 0) as [Hn|Hn].
    + intros H; inversion H; subst. simpl. lia.
    + destruct (handle_request fuel s) as [[[v s1]|]|]; try discriminate.
      destruct (handle_requests fuel (n - 1) s1) as [[[vs s2]|]|] eqn:E;
        try discriminate.
      intros H; inversion H; subst. apply IH in E. simpl. lia.
Qed.

(** The value of the last pair with key [k]. *)
Lemma dict_get_last (ps1 ps2 : list (value * value)) (k v : value) :
  hashable k = true -> ~ In k (map fst ps2) ->
  dict_get (set_all (ps1 ++ (k, v) :: ps2) []) k = Some v.
Proof.
  intros Hk Hlast. rewrite dict_get_set_all by assumption.
  rewrite rev_app_distr. simpl List.rev. rewrite <- app_assoc, dict_get_app.
  rewrite dict_get_none.
  - simpl. rewrite (key_eqb_refl k Hk). reflexivity.
  - rewrite map_rev, <- in_rev. assumption.
Qed.

(** C10: a dict frame ([%], a count line that reads as [n], then [2n]
    values) whose keys are hashable and hold a duplicate is decoded to a
    dictionary with fewer than [n] entries, where a key is bound to the
    value that follows its last occurrence; written again, that dictionary
    has a count below [n]. *)
Theorem C10_dict_frame_with_duplicate_keys
    (fuel : nat) (s body rest : bytes) (n : Z) (elements : list value) :
  read_int_line s = Ok (n, body) ->
  handle_requests fuel (n * 2) body = Some (Ok (elements, rest)) ->
  forallb hashable (map fst (pairs elements)) = true ->
  ~ NoDup (map fst (pairs elements)) ->
  exists d,
    decode ("%"%char :: s) = Some (Ok (PDict d, rest))
    /\ length (pairs elements) = Z.to_nat n
    /\ length d < Z.to_nat n
    /\ (forall ps1 k v ps2,
           pairs elements = ps1 ++ (k, v) :: ps2 ->
           ~ In k (map fst ps2) ->
           dict_get d k = Some v)
    /\ exists tail,
        _write (PDict d)
        = b "%" ++ str_of_int (Z.of_nat (length d)) ++ CRLF ++ tail
        /\ (Z.of_nat (length d) < n)%Z.
Proof.
  intros Hline Helts Hhash Hdup.
  assert (Hlen : length (pairs elements) = Z.to_nat n).
  { rewrite pairs_length, (handle_requests_length fuel _ _ _ _ Helts).
    destruct (Z.leb_spec n 0) as [Hn|Hn].
    - replace (Z.to_nat (n * 2)) with 0 by lia.
      replace (Z.to_nat n) with 0 by lia. reflexivity.
    - replace (Z.to_nat (n * 2)) with (Z.to_nat n * 2) by lia.
      apply Nat.div_mul. lia. }
  assert (Hshort : length (set_all (pairs elements) []) < Z.to_nat n).
  { rewrite <- Hlen. apply set_all_length_dup; assumption. }
  exists (set_all (pairs elements) []). split; [|split; [|split; [|split]]].
  - apply (decode_complete (S fuel)). rewrite handle_request_S. cbn [handlers].
    unfold handle_dict. rewrite Hline, Helts. unfold dict_of_pairs.
    rewrite Hhash. reflexivity.
  - exact Hlen.
  - exact Hshort.
  - intros ps1 k v ps2 Hsplit Hlast. rewrite Hsplit. apply dict_get_last.
    + rewrite Hsplit, map_app, forallb_app in Hhash.
      apply andb_true_iff in Hhash as [_ Hhash]. simpl in Hhash.
      apply andb_true_iff in Hhash as [Hk _]. exact Hk.
    + exact Hlast.
  - eexists. split; [reflexivity|]. lia.
Qed.

Lemma C10_dict_frame_with_duplicate_keys_witness :
  read_int_line duplicate_frame = Ok (2%Z, skipn 3 duplicate_frame)
  /\ handle_requests 5 (2 * 2) (skipn 3 duplicate_frame)
     = Some (Ok ([PStr (b "a"); PInt 1; PStr (b "a"); PInt 2], []))
  /\ exists d,
      decode ("%"%char :: duplicate_frame) = Some (Ok (PDict d, []))
      /\ length d < 2.
Proof.
  split; [reflexivity|]. split; [reflexivity|].
  assert (Hdup : ~ NoDup (map fst (pairs [PStr (b "a"); PInt 1; PStr (b "a"); PInt 2]))).
  { intros H. inversion H as [|? ? Hnot _]; subst. apply Hnot. left. reflexivity. }
  destruct (C10_dict_frame_with_duplicate_keys 5 duplicate_frame
              (skipn 3 duplicate_frame) [] 2
              [PStr (b "a"); PInt 1; PStr (b "a"); PInt 2]
              eq_refl eq_refl eq_refl Hdup) as (d & H1 & _ & H3 & _).
  exists d. split; [exact H1 | exact H3].
Defined.

Example duplicate_frame_decoded :
  decode ("%"%char :: duplicate_frame) = Some (Ok (PDict [(PStr (b "a"), PInt 2)], []))
  /\ _write (PDict [(PStr (b "a"), PInt 2)])
     = b "%1" ++ CRLF ++ b "$1" ++ CRLF ++ b "a" ++ CRLF ++ b ":2" ++ CRLF.
Proof. split; reflexivity. Qed.

(** * Further properties of the code *)

(** ** The codec *)

Lemma wire_ok_split (v : value) :
  wire_ok v = true <-> is_python v = true /\ line_errors v = true.
Proof. unfold wire_ok. apply andb_true_iff. Qed.

Lemma wire_ok_round_trip (v : value) : wire_ok v = true -> round_trip v.
Proof.
  intros H. apply wire_ok_split in H as [Hp Hl].
  apply wire_value_round_trip; assumption.
Qed.

Lemma decoded_wire_ok (s : bytes) (v : value) (r : bytes) :
  decode s = Some (Ok (v, r)) -> wire_ok v = true.
Proof.
  intros H. apply wire_ok_split. exact (proj1 (decoded_value_ok _) _ _ _ H).
Qed.

(** X1: whatever value [handle_request] returns, on any stream, can be
    written by [_write] and is then read back as itself: its strings are
    UTF-8, its dictionaries have distinct hashable keys, and its [Error]
    messages fit on one line. *)
Theorem X1_decoded_value_is_read_back (s : bytes) (v : value) (r : bytes) :
  decode s = Some (Ok (v, r)) -> wire_ok v = true /\ round_trip v.
Proof.
  intros H. pose proof (decoded_wire_ok s v r H) as Hw.
  split; [exact Hw | exact (wire_ok_round_trip v Hw)].
Qed.

Lemma X1_decoded_value_is_read_back_witness :
  decode ("%"%char :: duplicate_frame ++ b "tail")
  = Some (Ok (PDict [(PStr (b "a"), PInt 2)], b "tail"))
  /\ wire_ok (PDict [(PStr (b "a"), PInt 2)]) = true
  /\ round_trip (PDict [(PStr (b "a"), PInt 2)]).
Proof.
  split; [reflexivity|].
  exact (X1_decoded_value_is_read_back ("%"%char :: duplicate_frame ++ b "tail")
           (PDict [(PStr (b "a"), PInt 2)]) (b "tail") eq_refl).
Defined.

(** X2: an [Error] whose message is UTF-8 is read back from its encoding
    exactly when the message fits on one line: it holds no line feed and
    does not end with a carriage return or a line feed. *)
Theorem X2_error_is_read_back_iff_one_line (m : bytes) :
  utf8_valid m = true -> (round_trip (PError m) <-> line_text m = true).
Proof. exact (error_round_trip_iff m). Qed.

Lemma X2_error_is_read_back_iff_one_line_witness :
  utf8_valid (b "oops" ++ [CR]) = true
  /\ (round_trip (PError (b "oops" ++ [CR])) <-> line_text (b "oops" ++ [CR]) = true)
  /\ line_text (b "oops" ++ [CR]) = false.
Proof.
  split; [reflexivity|]. split; [|reflexivity].
  exact (X2_error_is_read_back_iff_one_line (b "oops" ++ [CR]) eq_refl).
Defined.

Lemma suffix_readline (s : bytes) : exists u, s = u ++ snd (readline s).
Proof. exists (fst (readline s)). symmetry. apply readline_split. Qed.

Lemma read_int_line_suffix (s : bytes) (n : Z) (r : bytes) :
  read_int_line s = Ok (n, r) -> exists u, s = u ++ r.
Proof.
  unfold read_int_line. pose proof (suffix_readline s) as H.
  destruct (readline s) as [line rest]. simpl in H.
  destruct (int_of_bytes (rstrip line)); intros E; inversion E; subst. assumption.
Qed.

Lemma read_text_line_suffix (s text r : bytes) :
  read_text_line s = Ok (text, r) -> exists u, s = u ++ r.
Proof.
  unfold read_text_line. pose proof (suffix_readline s) as H.
  destruct (readline s) as [line rest]. simpl in H.
  destruct (utf8_valid (rstrip line)); intros E; inversion E; subst. assumption.
Qed.

Lemma read_suffix (n : Z) (s data r : bytes) :
  read n s = Ok (data, r) -> s = data ++ r.
Proof.
  unfold read. destruct (n =? -1)%Z.
  - intros E; inversion E; subst. symmetry. apply app_nil_r.
  - destruct (n <? -1)%Z; intros E; inversion E; subst.
    symmetry. apply firstn_skipn.
Qed.

Lemma suffix_trans (s1 s2 s3 : bytes) :
  (exists u, s1 = u ++ s2) -> (exists u, s2 = u ++ s3) -> exists u, s1 = u ++ s3.
Proof.
  intros [u1 ->] [u2 ->]. exists (u1 ++ u2). apply app_assoc.
Qed.

Lemma handle_request_suffix (fuel : nat) :
  (forall s v r, handle_request fuel s = Some (Ok (v, r)) -> reads_forward s r)
  /\ (forall n s vs r,
        handle_requests fuel n s = Some (Ok (vs, r)) -> exists u, s = u ++ r).
Proof.
  assert (Hfw : forall c s' r, (exists u, s' = u ++ r) -> reads_forward (c :: s') r).
  { intros c s' r [u ->]. exists (c :: u). split; [discriminate|reflexivity]. }
  induction fuel as [|fuel [IH1 IH2]].
  - split; [discriminate|]. intros n s vs r. rewrite handle_requests_0.
    destruct (n <=? 0)%Z; intros H; inversion H; subst. exists []. reflexivity.
  - split.
    + intros s v r. rewrite handle_request_S.
      destruct s as [|c s']; [discriminate|].
      destruct (handlers c) as [[]|]; intros H; try discriminate; apply Hfw.
      * inversion H as [H']. unfold handle_simple_string in H'.
        destruct (read_text_line s') as [[t r']|] eqn:E; inversion H'; subst.
        eapply read_text_line_suffix; eassumption.
      * inversion H as [H']. unfold handle_error in H'.
        destruct (read_text_line s') as [[t r']|] eqn:E; inversion H'; subst.
        eapply read_text_line_suffix; eassumption.
      * inversion H as [H']. unfold handle_integer in H'.
        destruct (read_int_line s') as [[t r']|] eqn:E; inversion H'; subst.
        eapply read_int_line_suffix; eassumption.
      * inversion H as [H']. unfold handle_string in H'.
        destruct (read_int_line s') as [[n s1]|] eqn:E; [|discriminate].
        apply read_int_line_suffix in E. destruct (n =? -1)%Z.
        -- inversion H'; subst. assumption.
        -- destruct (read (n + 2) s1) as [[data s2]|] eqn:R; [|discriminate].
           apply read_suffix in R.
           destruct (utf8_valid (drop_last2 data)); inversion H'; subst.
           apply (suffix_trans _ _ _ E). exists data. reflexivity.
      * apply handle_array_inv in H as (n & s1 & l & R & E & _).
        apply read_int_line_suffix in R. apply IH2 in E.
        apply (suffix_trans _ _ _ R E).
      * apply handle_dict_inv in H as (n & s1 & l & d & R & E & _).
        apply read_int_line_suffix in R. apply IH2 in E.
        apply (suffix_trans _ _ _ R E).
    + intros n s vs r. rewrite handle_requests_S.
      destruct (n <=? 0)%Z; [intros H; inversion H; subst; exists []; reflexivity|].
      destruct (handle_request fuel s) as [[[v s1]|]|] eqn:E1; try discriminate.
      destruct (handle_requests fuel (n - 1) s1) as [[[vs' s2]|]|] eqn:E2;
        try discriminate.
      intros H; inversion H; subst. apply IH1 in E1 as (u1 & _ & ->).
      apply IH2 in E2 as [u2 ->]. exists (u1 ++ u2). apply app_assoc.
Qed.

(** X3: when [handle_request] returns a value, what it leaves in the stream
    is a proper suffix of the stream: it has read a non-empty prefix (at
    least the tag byte) and nothing else of the stream is lost or changed. *)
Theorem X3_decoder_reads_a_prefix (s : bytes) (v : value) (r : bytes) :
  decode s = Some (Ok (v, r)) -> reads_forward s r /\ length r < length s.
Proof.
  intros H. split.
  - exact (proj1 (handle_request_suffix _) _ _ _ H).
  - exact (proj1 (handle_request_consumes _) _ _ _ H).
Qed.

Lemma X3_decoder_reads_a_prefix_witness :
  decode (b ":12" ++ [LF] ++ b "+next") = Some (Ok (PInt 12, b "+next"))
  /\ reads_forward (b ":12" ++ [LF] ++ b "+next") (b "+next")
  /\ length (b "+next") < length (b ":12" ++ [LF] ++ b "+next").
Proof.
  split; [reflexivity|].
  exact (X3_decoder_reads_a_prefix (b ":12" ++ [LF] ++ b "+next") (PInt 12)
           (b "+next") eq_refl).
Defined.

(** X4: the encoding is prefix-free on the values that can be read back: if
    the encodings of two such values, each followed by anything, give the
    same bytes, the values are equal and so is what follows them.  In
    particular [_write] is injective on these values. *)
Theorem X4_encoding_is_prefix_free (v1 v2 : value) (r1 r2 : bytes) :
  wire_ok v1 = true -> wire_ok v2 = true ->
  _write v1 ++ r1 = _write v2 ++ r2 -> v1 = v2 /\ r1 = r2.
Proof.
  intros H1 H2 E.
  pose proof (wire_ok_round_trip v1 H1 r1) as D1.
  pose proof (wire_ok_round_trip v2 H2 r2) as D2.
  rewrite E, D2 in D1. injection D1 as -> ->. split; reflexivity.
Qed.

Lemma X4_encoding_is_prefix_free_witness :
  wire_ok (PList [PStr (b "a"); PInt 1]) = true
  /\ (PList [PStr (b "a"); PInt 1] = PList [PStr (b "a"); PInt 1]
      /\ b "x" = b "x").
Proof.
  split; [reflexivity|].
  exact (X4_encoding_is_prefix_free (PList [PStr (b "a"); PInt 1])
           (PList [PStr (b "a"); PInt 1]) (b "x") (b "x") eq_refl eq_refl eq_refl).
Defined.

(** ** Edge cases of the decoder *)

Lemma read_payload (s : bytes) (x y : ascii) (rest : bytes) :
  read (Z.of_nat (length s) + 2) (s ++ x :: y :: rest) = Ok (s ++ [x; y], rest).
Proof.
  unfold read.
  destruct (Z.eqb_spec (Z.of_nat (length s) + 2) (-1)) as [E|_]; [lia|].
  destruct (Z.ltb_spec (Z.of_nat (length s) + 2) (-1)) as [E|_]; [lia|].
  replace (Z.to_nat (Z.of_nat (length s) + 2)) with (length (s ++ [x; y]) + 0)
    by (rewrite length_app; simpl; lia).
  change (s ++ x :: y :: rest) with (s ++ [x; y] ++ rest).
  rewrite (app_assoc s [x; y] rest), firstn_app_2, skipn_app.
  rewrite skipn_all2 by lia. simpl.
  replace (length (s ++ [x; y]) + 0 - length (s ++ [x; y])) with 0 by lia.
  rewrite app_nil_r. reflexivity.
Qed.

Lemma drop_last2_two (s : bytes) (x y : ascii) : drop_last2 (s ++ [x; y]) = s.
Proof.
  unfold drop_last2. rewrite length_app. simpl.
  replace (length s + 2 - 2) with (length s + 0) by lia.
  rewrite firstn_app_2. simpl. apply app_nil_r.
Qed.

(** X5: the two bytes that follow the payload of a bulk string are dropped
    without being looked at: whatever they are, [handle_string] returns the
    payload and goes on after them. *)
Theorem X5_bulk_terminator_is_not_checked
    (s : bytes) (x y : ascii) (rest : bytes) :
  utf8_valid s = true ->
  decode ("$"%char :: str_of_int (Z.of_nat (length s)) ++ CRLF ++ s ++ x :: y :: rest)
  = Some (Ok (PStr s, rest)).
Proof.
  intros U. apply (decode_complete 1). rewrite handle_request_S. cbn [handlers].
  unfold handle_string. rewrite read_int_line_str_of_int.
  destruct (Z.eqb_spec (Z.of_nat (length s)) (-1)) as [E|_]; [lia|].
  rewrite read_payload, drop_last2_two, U. reflexivity.
Qed.

Lemma X5_bulk_terminator_is_not_checked_witness :
  utf8_valid (b "abc") = true
  /\ decode (b "$3" ++ CRLF ++ b "abcXY+next") = Some (Ok (PStr (b "abc"), b "+next")).
Proof.
  split; [reflexivity|].
  exact (X5_bulk_terminator_is_not_checked (b "abc") "X"%char "Y"%char
           (b "+next") eq_refl).
Defined.




(** X8: a count that is zero or negative gives the empty list, or the empty
    dictionary, and no element is read: [range] of such a count is empty. *)
Theorem X8_count_not_positive (n : Z) (rest : bytes) :
  (n <= 0)%Z ->
  decode ("*"%char :: str_of_int n ++ CRLF ++ rest) = Some (Ok (PList [], rest))
  /\ decode ("%"%char :: str_of_int n ++ CRLF ++ rest) = Some (Ok (PDict [], rest)).
Proof.
  intros Hn. split; apply (decode_complete 1); rewrite handle_request_S;
    cbn [handlers].
  - unfold handle_array. rewrite read_int_line_str_of_int, handle_requests_0.
    destruct (Z.leb_spec n 0); [reflexivity|lia].
  - unfold handle_dict. rewrite read_int_line_str_of_int, handle_requests_0.
    destruct (Z.leb_spec (n * 2) 0); [reflexivity|lia].
Qed.

Lemma X8_count_not_positive_witness :
  (-7 <= 0)%Z
  /\ decode (b "*-7" ++ CRLF ++ b ":1" ++ CRLF) = Some (Ok (PList [], b ":1" ++ CRLF)).
Proof.
  split; [lia|].
  exact (proj1 (X8_count_not_positive (-7) (b ":1" ++ CRLF) ltac:(lia))).
Defined.

Lemma handle_requests_short (l : list value) :
  Forall reads_back l ->
  exists fuel, forall fuel' n,
      fuel <= fuel' -> (Z.of_nat (length l) < n)%Z ->
      handle_requests fuel' n (flat_map _write l) = Some (Raise Disconnect).
Proof.
  induction 1 as [|v l [f1 Hv] _ [f2 IH]].
  - exists 2. intros [|[|fuel']] n Hle Hn; try lia.
    rewrite handle_requests_S. simpl in Hn.
    destruct (Z.leb_spec n 0); [lia|]. reflexivity.
  - exists (S (Nat.max f1 f2)). intros [|fuel'] n Hle Hn; [lia|].
    rewrite handle_requests_S. simpl length in Hn.
    destruct (Z.leb_spec n 0); [lia|].
    simpl flat_map. rewrite Hv by lia. rewrite IH by lia. reflexivity.
Qed.

(** X9: an array that announces more elements than the stream holds is not
    an error: once the elements that are there are read, the next read finds
    the end of the stream and [Disconnect] is raised, which the connection
    loop takes as the peer closing: no response, the store as it was. *)
Theorem X9_truncated_array_is_a_disconnect
    (up : bytes -> bytes) (kv : store) (n : Z) (l : list value) :
  forallb wire_ok l = true -> (Z.of_nat (length l) < n)%Z ->
  decode ("*"%char :: str_of_int n ++ CRLF ++ flat_map _write l)
  = Some (Raise Disconnect)
  /\ connection_handler up kv
       ("*"%char :: str_of_int n ++ CRLF ++ flat_map _write l)
     = Some (kv, [], PeerDisconnected).
Proof.
  intros Hw Hn.
  assert (Hall : Forall reads_back l).
  { rewrite forallb_forall in Hw. apply Forall_forall. intros v Hin.
    specialize (Hw v Hin). apply wire_ok_split in Hw as [Hp Hl].
    apply reads_back_value; assumption. }
  destruct (handle_requests_short l Hall) as [f Hf].
  assert (Hd : decode ("*"%char :: str_of_int n ++ CRLF ++ flat_map _write l)
               = Some (Raise Disconnect)).
  { apply (decode_complete (S f)). rewrite handle_request_S. cbn [handlers].
    unfold handle_array. rewrite read_int_line_str_of_int, Hf by lia.
    reflexivity. }
  split; [exact Hd|].
  unfold connection_handler. cbn [connection_loop]. unfold serve_request.
  rewrite Hd. reflexivity.
Qed.

Lemma X9_truncated_array_is_a_disconnect_witness :
  forallb wire_ok [PStr (b "SET"); PStr (b "k")] = true
  /\ (Z.of_nat (length [PStr (b "SET"); PStr (b "k")]) < 3)%Z
  /\ connection_handler upper_ascii [(PStr (b "a"), PInt 1)]
       (b "*3" ++ CRLF ++ b "$3" ++ CRLF ++ b "SET" ++ CRLF ++ b "$1" ++ CRLF
          ++ b "k" ++ CRLF)
     = Some ([(PStr (b "a"), PInt 1)], [], PeerDisconnected).
Proof.
  split; [reflexivity|]. split; [simpl; lia|].
  exact (proj2 (X9_truncated_array_is_a_disconnect upper_ascii
                  [(PStr (b "a"), PInt 1)] 3 [PStr (b "SET"); PStr (b "k")]
                  eq_refl ltac:(simpl; lia))).
Defined.

Lemma readline_app_lf (l rest : bytes) :
  no_lf l = true -> readline (l ++ LF :: rest) = (l ++ [LF], rest).
Proof.
  unfold no_lf. induction l as [|c l IH]; simpl; intros H.
  - reflexivity.
  - apply andb_true_iff in H as [Hc Hl]. apply negb_true_iff in Hc.
    rewrite Hc, (IH Hl). reflexivity.
Qed.

Lemma rstrip_app_lf (l : bytes) : rstrip (l ++ [LF]) = rstrip l.
Proof.
  induction l as [|c l IH]; simpl; [reflexivity|]. rewrite IH. reflexivity.
Qed.

Lemma line_text_readline_lf (m rest : bytes) :
  line_text m = true ->
  readline (m ++ LF :: rest) = (m ++ [LF], rest) /\ rstrip (m ++ [LF]) = m.
Proof.
  unfold line_text. intros H. apply andb_true_iff in H as [H1 H2].
  apply bytes_eqb_eq in H2. split.
  - apply readline_app_lf; assumption.
  - rewrite rstrip_app_lf. assumption.
Qed.

(** X10: a line may end with a bare line feed: [readline] stops at the line
    feed and [rstrip] removes it whether or not a carriage return comes
    before, so simple strings, errors and integers ended by a line feed alone
    are read like the ones ended by carriage return and line feed. *)
Theorem X10_bare_line_feed_ends_a_line (m rest : bytes) :
  line_text m = true -> utf8_valid m = true ->
  decode ("+"%char :: m ++ LF :: rest) = Some (Ok (PStr m, rest))
  /\ decode ("-"%char :: m ++ LF :: rest) = Some (Ok (PError m, rest))
  /\ forall z, decode (":"%char :: str_of_int z ++ LF :: rest)
               = Some (Ok (PInt z, rest)).
Proof.
  intros L U. destruct (line_text_readline_lf m rest L) as [Hr Hs].
  split; [|split].
  - apply (decode_complete 1). rewrite handle_request_S. cbn [handlers].
    unfold handle_simple_string, read_text_line. rewrite Hr, Hs, U. reflexivity.
  - apply (decode_complete 1). rewrite handle_request_S. cbn [handlers].
    unfold handle_error, read_text_line. rewrite Hr, Hs, U. reflexivity.
  - intros z. apply (decode_complete 1). rewrite handle_request_S.
    cbn [handlers]. unfold handle_integer, read_int_line.
    destruct (line_text_readline_lf (str_of_int z) rest
                (numeral_line_text _ (str_of_int_chars z))) as [Hr' Hs'].
    rewrite Hr', Hs', int_of_bytes_str_of_int. reflexivity.
Qed.

Lemma X10_bare_line_feed_ends_a_line_witness :
  line_text (b "OK") = true /\ utf8_valid (b "OK") = true
  /\ decode (b "+OK" ++ [LF] ++ b ":1") = Some (Ok (PStr (b "OK"), b ":1")).
Proof.
  split; [reflexivity|]. split; [reflexivity|].
  exact (proj1 (X10_bare_line_feed_ends_a_line (b "OK") (b ":1") eq_refl eq_refl)).
Defined.

(** ** The commands of the store *)

Lemma mget_values_spec (kv : store) (keys : list value) :
  mget_values kv keys
  = if forallb hashable keys
    then Ok (map (fun key => or_none (dict_get kv key)) keys)
    else Raise TypeError.
Proof.
  induction keys as [|k keys IH]; simpl; [reflexivity|].
  destruct (hashable k); simpl; [|reflexivity].
  rewrite IH. destruct (forallb hashable keys); reflexivity.
Qed.

(** X11: [MGET] answers one slot per key, in the order of the keys, each
    slot being what [GET] answers for that key ([None] for a key that is not
    there), and leaves the store as it is; if one of the keys is unhashable
    the whole call raises [TypeError]. *)
Theorem X11_mget_is_get_for_each_key (kv : store) (keys : list value) :
  mget kv keys
  = (kv, if forallb hashable keys
         then Ok (PList (map (fun key => or_none (dict_get kv key)) keys))
         else Raise TypeError)
  /\ (forallb hashable keys = true ->
      map (fun key => get kv key) keys
      = map (fun key => (kv, Ok (or_none (dict_get kv key)))) keys).
Proof.
  split.
  - unfold mget. rewrite mget_values_spec.
    destruct (forallb hashable keys); reflexivity.
  - intros H. apply map_ext_in. intros k Hin. unfold get.
    rewrite forallb_forall in H. rewrite (H k Hin). reflexivity.
Qed.

Lemma dict_get_NoDup (d : dict) (k v : value) :
  hashable k = true -> NoDup (map fst d) -> In (k, v) d -> dict_get d k = Some v.
Proof.
  intros Hk. induction d as [|[k2 v2] d IH]; simpl; intros Hn Hin; [contradiction|].
  inversion Hn as [|? ? Hnot Hn']; subst. destruct Hin as [E | Hin].
  - inversion E; subst. rewrite (key_eqb_refl k Hk). reflexivity.
  - rewrite key_eqb_neq; [apply IH; assumption|].
    intros ->. apply Hnot. apply (in_map fst) in Hin. exact Hin.
Qed.

Lemma pairs_flatten (ps : list (value * value)) : pairs (flatten_pairs ps) = ps.
Proof. apply pairs_flat. Qed.

Lemma flatten_pairs_length (ps : list (value * value)) :
  length (flatten_pairs ps) = 2 * length ps.
Proof. apply flat_entries_length. Qed.

Lemma mset_flatten (kv : store) (ps : list (value * value)) :
  forallb hashable (map fst ps) = true ->
  mset kv (flatten_pairs ps) = (set_all ps kv, Ok (PInt (Z.of_nat (length ps)))).
Proof.
  intros Hh. unfold mset. rewrite pairs_flatten, mset_loop_set_all by assumption.
  rewrite flatten_pairs_length.
  replace (Z.of_nat (2 * length ps) / 2)%Z with (Z.of_nat (length ps)).
  - reflexivity.
  - rewrite Nat2Z.inj_mul, Z.mul_comm, Z.div_mul by lia. reflexivity.
Qed.

(** X12: after [MSET] of pairs with distinct hashable keys, [MGET] of these
    keys, in the same order, answers the values that were set, in that
    order. *)
Theorem X12_mget_after_mset (kv : store) (ps : list (value * value)) :
  forallb hashable (map fst ps) = true -> NoDup (map fst ps) ->
  exists kv',
    mset kv (flatten_pairs ps) = (kv', Ok (PInt (Z.of_nat (length ps))))
    /\ mget kv' (map fst ps) = (kv', Ok (PList (map snd ps))).
Proof.
  intros Hh Hn. exists (set_all ps kv). split; [apply mset_flatten; assumption|].
  unfold mget. rewrite mget_values_spec, Hh. do 3 f_equal.
  rewrite map_map. apply map_ext_in. intros [k v] Hin. simpl.
  assert (Hk : hashable k = true).
  { rewrite forallb_forall in Hh. apply Hh. apply (in_map fst) in Hin. exact Hin. }
  rewrite dict_get_set_all by assumption.
  rewrite (dict_get_NoDup (List.rev ps) k v Hk).
  - reflexivity.
  - rewrite map_rev. apply NoDup_rev. assumption.
  - apply -> in_rev. assumption.
Qed.

Lemma X12_mget_after_mset_witness :
  forallb hashable (map fst [(PStr (b "b"), PStr (b "2")); (PInt 3, PNone)]) = true
  /\ NoDup (map fst [(PStr (b "b"), PStr (b "2")); (PInt 3, PNone)])
  /\ exists kv',
      mset [(PInt 3, PInt 0)]
        (flatten_pairs [(PStr (b "b"), PStr (b "2")); (PInt 3, PNone)])
      = (kv', Ok (PInt 2))
      /\ mget kv' [PStr (b "b"); PInt 3] = (kv', Ok (PList [PStr (b "2"); PNone])).
Proof.
  assert (Hn : NoDup (map fst [(PStr (b "b"), PStr (b "2")); (PInt 3, PNone)])).
  { simpl. constructor; [intros [H | []]; discriminate|].
    constructor; [intros []|constructor]. }
  split; [reflexivity|]. split; [exact Hn|].
  exact (X12_mget_after_mset [(PInt 3, PInt 0)]
           [(PStr (b "b"), PStr (b "2")); (PInt 3, PNone)] eq_refl Hn).
Defined.

(** X13: [SET] touches one key only.  Every other key reads as before; a
    key that is already in the store keeps its place, so the keys of the
    store and their number do not change (the value is overwritten); a new
    key is added after the others. *)
Theorem X13_set_changes_one_key (kv : store) (k v : value) :
  hashable k = true ->
  (forall k', k' <> k ->
              dict_get (fst (set kv k v)) k' = dict_get kv k')
  /\ (In k (map fst kv) -> map fst (fst (set kv k v)) = map fst kv)
  /\ (~ In k (map fst kv) -> fst (set kv k v) = kv ++ [(k, v)]).
Proof.
  intros Hk. unfold set. rewrite Hk. simpl. split; [|split].
  - intros k' Hne. apply dict_get_set_other. assumption.
  - induction kv as [|[k2 v2] kv IH]; simpl; [contradiction|].
    destruct (key_eqb k k2) eqn:E; simpl; [reflexivity|].
    intros [-> | Hin].
    + rewrite (key_eqb_refl k Hk) in E. discriminate.
    + rewrite IH by assumption. reflexivity.
  - apply dict_set_fresh.
Qed.

Lemma X13_set_changes_one_key_witness :
  hashable (PStr (b "a")) = true
  /\ map fst (fst (set [(PStr (b "a"), PInt 1); (PStr (b "c"), PInt 2)]
                       (PStr (b "a")) (PInt 9)))
     = map fst [(PStr (b "a"), PInt 1); (PStr (b "c"), PInt 2)].
Proof.
  split; [reflexivity|].
  exact (proj1 (proj2 (X13_set_changes_one_key
                         [(PStr (b "a"), PInt 1); (PStr (b "c"), PInt 2)]
                         (PStr (b "a")) (PInt 9) eq_refl))
               (or_introl eq_refl)).
Defined.

Lemma dict_pop_other (d : dict) (k k' : value) :
  k' <> k -> dict_get (snd (dict_pop k d)) k' = dict_get d k'.
Proof.
  intros Hne. induction d as [|[k2 v2] d IH]; simpl; [reflexivity|].
  destruct (key_eqb k k2) eqn:E; simpl.
  - apply key_eqb_eq in E. subst k2. rewrite (key_eqb_neq k' k Hne). reflexivity.
  - destruct (dict_pop k d) as [r d']. simpl in *. rewrite IH. reflexivity.
Qed.

Lemma dict_pop_absent (d : dict) (k : value) :
  ~ In k (map fst d) -> dict_pop k d = (None, d).
Proof.
  induction d as [|[k2 v2] d IH]; simpl; intros H; [reflexivity|].
  rewrite key_eqb_neq by (intros ->; apply H; left; reflexivity).
  rewrite IH; [reflexivity|]. intros Hin. apply H. right. assumption.
Qed.

Lemma dict_pop_present (d : dict) (k : value) :
  hashable k = true -> NoDup (map fst d) -> In k (map fst d) ->
  S (length (snd (dict_pop k d))) = length d
  /\ ~ In k (map fst (snd (dict_pop k d))).
Proof.
  intros Hk. induction d as [|[k2 v2] d IH]; simpl; intros Hn Hin; [contradiction|].
  inversion Hn as [|? ? Hnot Hn']; subst.
  destruct (key_eqb k k2) eqn:E; simpl.
  - apply key_eqb_eq in E. subst k2. split; [reflexivity|assumption].
  - destruct Hin as [-> | Hin]; [rewrite (key_eqb_refl k Hk) in E; discriminate|].
    destruct (IH Hn' Hin) as [IH1 IH2].
    destruct (dict_pop k d) as [r d']. simpl in *. split; [lia|].
    intros [-> | H]; [|contradiction].
    rewrite (key_eqb_refl k Hk) in E. discriminate.
Qed.

Lemma key_in_or_not (k : value) (ks : list value) :
  hashable k = true -> In k ks \/ ~ In k ks.
Proof.
  intros Hk. induction ks as [|k2 ks [IH | IH]].
  - right. intros [].
  - left. right. assumption.
  - destruct (key_eqb k k2) eqn:E.
    + apply key_eqb_eq in E. left. left. congruence.
    + right. intros [-> | H]; [|contradiction].
      rewrite (key_eqb_refl k Hk) in E. discriminate.
Qed.

(** X14: [DELETE] touches one key only, on a store with distinct keys.
    Every other key reads as before; a key that is in the store is removed,
    with exactly one entry; without the key the store is left as it is; and
    a second [DELETE] of the same key answers 0. *)
Theorem X14_delete_changes_one_key (kv : store) (k : value) :
  hashable k = true -> NoDup (map fst kv) ->
  (forall k', k' <> k -> dict_get (fst (delete kv k)) k' = dict_get kv k')
  /\ ~ In k (map fst (fst (delete kv k)))
  /\ (In k (map fst kv) -> S (length (fst (delete kv k))) = length kv)
  /\ (~ In k (map fst kv) -> delete kv k = (kv, Ok (PInt 0)))
  /\ delete (fst (delete kv k)) k = (fst (delete kv k), Ok (PInt 0)).
Proof.
  intros Hk Hn.
  assert (Hd : fst (delete kv k) = snd (dict_pop k kv)).
  { unfold delete. rewrite Hk. destruct (dict_pop k kv); reflexivity. }
  assert (Habs : forall d, ~ In k (map fst d) -> delete d k = (d, Ok (PInt 0))).
  { intros d H. unfold delete. rewrite Hk, (dict_pop_absent d k H). reflexivity. }
  assert (Hgone : ~ In k (map fst (snd (dict_pop k kv)))).
  { destruct (key_in_or_not k (map fst kv) Hk) as [Hin | Hout];
      [apply (dict_pop_present kv k Hk Hn Hin)|].
    rewrite (dict_pop_absent kv k Hout). assumption. }
  rewrite Hd. split; [|split; [|split; [|split]]].
  - intros k' Hne. apply dict_pop_other. assumption.
  - exact Hgone.
  - intros Hin. apply (dict_pop_present kv k Hk Hn Hin).
  - exact (Habs kv).
  - exact (Habs _ Hgone).
Qed.

Lemma X14_delete_changes_one_key_witness :
  hashable (PStr (b "a")) = true
  /\ NoDup (map fst [(PStr (b "a"), PNone); (PStr (b "c"), PInt 2)])
  /\ S (length (fst (delete [(PStr (b "a"), PNone); (PStr (b "c"), PInt 2)]
                            (PStr (b "a")))))
     = length [(PStr (b "a"), PNone); (PStr (b "c"), PInt 2)].
Proof.
  assert (Hn : NoDup (map fst [(PStr (b "a"), PNone); (PStr (b "c"), PInt 2)])).
  { simpl. constructor; [intros [H | []]; discriminate|].
    constructor; [intros []|constructor]. }
  split; [reflexivity|]. split; [exact Hn|].
  destruct (X14_delete_changes_one_key
              [(PStr (b "a"), PNone); (PStr (b "c"), PInt 2)] (PStr (b "a"))
              eq_refl Hn) as (_ & _ & H & _).
  exact (H (or_introl eq_refl)).
Defined.

Lemma pairs_flatten_app (ps : list (value * value)) (l : list value) :
  pairs (flatten_pairs ps ++ l) = ps ++ pairs l.
Proof.
  induction ps as [|[k v] ps IH]; [reflexivity|].
  change (flatten_pairs ((k, v) :: ps) ++ l)
    with (k :: v :: (flatten_pairs ps ++ l)).
  rewrite pairs_cons2, IH. reflexivity.
Qed.

Lemma mset_loop_app (kv : store) (ps qs : list (value * value)) :
  forallb hashable (map fst ps) = true ->
  mset_loop kv (ps ++ qs) = mset_loop (set_all ps kv) qs.
Proof.
  revert kv. induction ps as [|[k v] ps IH]; simpl; intros kv Hh; [reflexivity|].
  apply andb_true_iff in Hh as [Hk Hh]. rewrite Hk. apply IH. assumption.
Qed.

(** X15: [MSET] is not all-or-nothing.  When the key of a pair is
    unhashable the call raises [TypeError] at that pair: the pairs before it
    stay assigned in the store, the pairs after it are not assigned. *)
Theorem X15_mset_stops_at_an_unhashable_key
    (kv : store) (ps : list (value * value)) (k v : value) (rest : list value) :
  forallb hashable (map fst ps) = true -> hashable k = false ->
  mset kv (flatten_pairs ps ++ k :: v :: rest) = (set_all ps kv, Raise TypeError).
Proof.
  intros Hh Hk. unfold mset.
  rewrite pairs_flatten_app, pairs_cons2, mset_loop_app by assumption.
  simpl. rewrite Hk. reflexivity.
Qed.

Lemma X15_mset_stops_at_an_unhashable_key_witness :
  forallb hashable (map fst [(PStr (b "a"), PInt 1)]) = true
  /\ hashable (PList []) = false
  /\ mset [] [PStr (b "a"); PInt 1; PList []; PInt 2; PStr (b "c"); PInt 3]
     = ([(PStr (b "a"), PInt 1)], Raise TypeError).
Proof.
  split; [reflexivity|]. split; [reflexivity|].
  exact (X15_mset_stops_at_an_unhashable_key [] [(PStr (b "a"), PInt 1)]
           (PList []) (PInt 2) [PStr (b "c"); PInt 3] eq_refl eq_refl).
Defined.

Lemma call_raise (c : command) (kv kv' : store) (args : list value) (e : exn) :
  call c kv args = (kv', Raise e) -> e = TypeError /\ (kv' = kv \/ c = MSET).
Proof.
  intros H. pose proof (call_outcome c kv kv' args (Raise e) H) as He.
  simpl in He. split; [exact He|].
  destruct c; simpl in H; auto; left.
  - destruct args as [|k [|? ?]]; try (inversion H; reflexivity).
    unfold get in H. destruct (hashable k); inversion H; reflexivity.
  - destruct args as [|k [|v [|? ?]]]; try (inversion H; reflexivity).
    unfold set in H. destruct (hashable k); inversion H; reflexivity.
  - destruct args as [|k [|? ?]]; try (inversion H; reflexivity).
    unfold delete in H. destruct (hashable k); [|inversion H; reflexivity].
    destruct (dict_pop k kv). discriminate.
  - destruct args; inversion H; reflexivity.
  - unfold mget in H. destruct (mget_values kv args); inversion H; reflexivity.
Qed.

(** X16: what a failing request can do.  [get_response] raises only
    [CommandError], [AttributeError] (the command name is not a string) or
    [TypeError] (number of arguments, unhashable key); apart from a
    [TypeError] raised in the middle of [MSET], the store is then exactly as
    it was before the request. *)
Theorem X16_failing_request_keeps_the_store
    (up : bytes -> bytes) (kv kv' : store) (data : value) (e : exn) :
  get_response up kv data = (kv', Raise e) ->
  ((exists msg, e = CommandError msg) \/ e = AttributeError \/ e = TypeError)
  /\ (kv' = kv
      \/ exists name items,
          data = PList (PStr name :: items)
          /\ get_commands (up name) = Some MSET /\ e = TypeError).
Proof.
  destruct data as [ | | | | [|[ | | name | | | ] args] | ]; simpl;
    try (intros H; inversion H; subst; split; [eauto | left; reflexivity]).
  destruct (get_commands (up name)) as [c|] eqn:E.
  - intros H. apply call_raise in H as [-> [-> | ->]].
    + split; [auto | left; reflexivity].
    + split; [auto | right; eauto].
  - intros H; inversion H; subst. split; [eauto | left; reflexivity].
Qed.

Lemma X16_failing_request_keeps_the_store_witness :
  get_response upper_ascii [(PStr (b "a"), PInt 1)]
    (PList [PStr (b "get"); PList []])
  = ([(PStr (b "a"), PInt 1)], Raise TypeError)
  /\ ((exists msg, TypeError = CommandError msg) \/ TypeError = AttributeError
      \/ TypeError = TypeError).
Proof.
  split; [reflexivity|].
  exact (proj1 (X16_failing_request_keeps_the_store upper_ascii
                  [(PStr (b "a"), PInt 1)] [(PStr (b "a"), PInt 1)]
                  (PList [PStr (b "get"); PList []]) TypeError eq_refl)).
Defined.

(** ** The connection loop and the store *)

Lemma wire_ok_list (l : list value) :
  wire_ok (PList l) = forallb wire_ok l.
Proof.
  unfold wire_ok. simpl. induction l as [|v l IH]; [reflexivity|].
  simpl. rewrite <- IH.
  destruct (is_python v), (line_errors v), (forallb is_python l),
    (forallb line_errors l); reflexivity.
Qed.

Lemma store_get_wire_ok (kv : store) (k : value) :
  store_wire_ok kv -> wire_ok (or_none (dict_get kv k)) = true.
Proof.
  intros Hs. destruct (dict_get kv k) as [v|] eqn:E; [|reflexivity].
  apply dict_get_in in E. unfold store_wire_ok in Hs.
  rewrite Forall_forall in Hs. exact (proj2 (Hs _ E)).
Qed.

Lemma dict_pop_entries (P : value * value -> Prop) (d : dict) (k : value) :
  Forall P d -> Forall P (snd (dict_pop k d)).
Proof.
  induction 1 as [|[k2 v2] d H2 Hd IH]; simpl; [constructor|].
  destruct (key_eqb k k2); simpl; [assumption|].
  destruct (dict_pop k d); simpl in *. constructor; assumption.
Qed.

Lemma mset_loop_wire_ok (ps : list (value * value)) (kv : store) :
  Forall (fun e => wire_ok (fst e) = true /\ wire_ok (snd e) = true) ps ->
  store_wire_ok kv -> store_wire_ok (fst (mset_loop kv ps)).
Proof.
  intros Hps. revert kv. induction Hps as [|[k v] ps [Hk Hv] _ IH]; simpl;
    intros kv Hkv; [assumption|].
  destruct (hashable k); [|assumption].
  apply IH. apply (dict_set_entries (fun x => wire_ok x = true)); assumption.
Qed.

Lemma mget_values_wire_ok (kv : store) (keys vs : list value) :
  store_wire_ok kv -> mget_values kv keys = Ok vs -> forallb wire_ok vs = true.
Proof.
  intros Hs. rewrite mget_values_spec.
  destruct (forallb hashable keys); [|discriminate].
  intros H; inversion H; subst. apply forallb_forall. intros v Hin.
  apply in_map_iff in Hin as (k & <- & _). apply store_get_wire_ok. assumption.
Qed.

(** A command run on arguments and a store that can be sent leaves such a
    store, and what it answers can be sent. *)
Lemma call_wire_ok (c : command) (kv kv' : store) (args : list value)
    (r : outcome value) :
  forallb wire_ok args = true -> store_wire_ok kv ->
  call c kv args = (kv', r) ->
  store_wire_ok kv' /\ forall v, r = Ok v -> wire_ok v = true.
Proof.
  intros Ha Hs. destruct c; simpl.
  - destruct args as [|k [|? ?]];
      try (intros H; inversion H; subst; split; [assumption|discriminate]).
    unfold get. destruct (hashable k); intros H; inversion H; subst;
      (split; [assumption|]); [|discriminate].
    intros v Hv; inversion Hv; subst. apply store_get_wire_ok. assumption.
  - destruct args as [|k [|v [|? ?]]];
      try (intros H; inversion H; subst; split; [assumption|discriminate]).
    simpl in Ha. apply andb_true_iff in Ha as [Hk Ha].
    apply andb_true_iff in Ha as [Hv _].
    unfold set. destruct (hashable k); intros H; inversion H; subst.
    + split; [|intros x Hx; inversion Hx; reflexivity].
      apply (dict_set_entries (fun x => wire_ok x = true)); assumption.
    + split; [assumption|discriminate].
  - destruct args as [|k [|? ?]];
      try (intros H; inversion H; subst; split; [assumption|discriminate]).
    unfold delete. destruct (hashable k).
    + pose proof (dict_pop_entries _ kv k Hs) as Hp.
      destruct (dict_pop k kv) as [r0 d]. simpl in Hp.
      intros H; inversion H; subst.
      split; [assumption|intros x Hx; inversion Hx; reflexivity].
    + intros H; inversion H; subst. split; [assumption|discriminate].
  - destruct args; intros H; inversion H; subst.
    + split; [constructor|intros x Hx; inversion Hx; reflexivity].
    + split; [assumption|discriminate].
  - unfold mget. destruct (mget_values kv args) as [vs|e] eqn:E;
      intros H; inversion H; subst; (split; [assumption|]); [|discriminate].
    intros v Hv; inversion Hv; subst. rewrite wire_ok_list.
    apply (mget_values_wire_ok kv' args vs Hs E).
  - unfold mset.
    assert (Hps : Forall (fun e => wire_ok (fst e) = true /\ wire_ok (snd e) = true)
                    (pairs args)).
    { apply (pairs_entries (fun x => wire_ok x = true)).
      apply Forall_forall. rewrite forallb_forall in Ha. exact Ha. }
    pose proof (mset_loop_wire_ok (pairs args) kv Hps Hs) as Hm.
    destruct (mset_loop kv (pairs args)) as [kv1 [e|]]; simpl in Hm;
      intros H; inversion H; subst.
    + split; [assumption|discriminate].
    + split; [assumption|intros x Hx; inversion Hx; reflexivity].
Qed.

Lemma get_response_wire_ok (up : bytes -> bytes) (kv kv' : store) (data : value)
    (r : outcome value) :
  wire_ok data = true -> store_wire_ok kv ->
  get_response up kv data = (kv', r) ->
  store_wire_ok kv' /\ forall v, r = Ok v -> wire_ok v = true.
Proof.
  intros Hd Hs.
  destruct data as [ | | | | [|[ | | name | | | ] args] | ]; simpl;
    try (intros H; inversion H; subst; split; [assumption|discriminate]).
  destruct (get_commands (up name)) as [c|];
    [|intros H; inversion H; subst; split; [assumption|discriminate]].
  apply call_wire_ok; [|assumption].
  rewrite wire_ok_list in Hd. simpl in Hd.
  apply andb_true_iff in Hd as [_ Hd]. exact Hd.
Qed.

(** What a turn of the loop keeps: the store stays a dictionary with
    distinct hashable keys whose content can be sent, and a response is
    either a value that can be read back or an [Error] reply. *)
Lemma respond_keeps (up : bytes -> bytes) (kv kv' : store) (input : bytes)
    (data : value) (rest : bytes) (r : outcome value) :
  dict_ok kv -> store_wire_ok kv ->
  decode input = Some (Ok (data, rest)) ->
  respond up kv data = (kv', r) ->
  dict_ok kv' /\ store_wire_ok kv'
  /\ forall resp, r = Ok resp -> wire_ok resp = true \/ exists m, resp = PError m.
Proof.
  intros Hok Hs Hd. apply decoded_wire_ok in Hd. unfold respond.
  pose proof (get_response_keeps_dict_ok up kv data Hok) as Hk.
  destruct (get_response up kv data) as [kv1 r1] eqn:E. simpl in Hk.
  destruct (get_response_wire_ok up kv kv1 data r1 Hd Hs E) as [Hs1 Hr1].
  destruct r1 as [v|e].
  - intros H; inversion H; subst. split; [assumption|]. split; [assumption|].
    intros resp Hresp; inversion Hresp; subst. left. apply Hr1. reflexivity.
  - destruct e; intros H; inversion H; subst;
      (split; [assumption|]); (split; [assumption|]);
      try discriminate.
    intros resp Hresp; inversion Hresp; subst. right. eauto.
Qed.

Lemma connection_loop_keeps (up : bytes -> bytes) (fuel : nat) :
  forall kv input output kv' output' why,
    dict_ok kv -> store_wire_ok kv ->
    connection_loop up fuel kv input output = Some (kv', output', why) ->
    dict_ok kv' /\ store_wire_ok kv'
    /\ exists resps,
        output' = output ++ flat_map _write resps
        /\ Forall (fun resp => wire_ok resp = true \/ exists m, resp = PError m)
             resps.
Proof.
  induction fuel as [|fuel IH]; intros kv input output kv' output' why Hok Hs;
    [discriminate|].
  simpl. unfold serve_request.
  destruct (decode input) as [[[data rest]|e]|] eqn:Hd; [| |discriminate].
  - destruct (respond up kv data) as [kv1 [resp|e]] eqn:Hr;
      destruct (respond_keeps up kv kv1 input data rest _ Hok Hs Hd Hr)
      as (Hok1 & Hs1 & Hresp).
    + intros H. apply (IH _ _ _ _ _ _ Hok1 Hs1) in H
        as (Hok' & Hs' & resps & -> & Hall).
      split; [assumption|]. split; [assumption|].
      exists (resp :: resps). split.
      * unfold write_response. simpl. rewrite <- app_assoc. reflexivity.
      * constructor; [apply Hresp; reflexivity | assumption].
    + intros H; inversion H; subst. split; [assumption|]. split; [assumption|].
      exists []. split; [symmetry; apply app_nil_r | constructor].
  - destruct e; intros H; inversion H; subst;
      (split; [assumption|]); (split; [assumption|]);
      exists []; (split; [symmetry; apply app_nil_r | constructor]).
Qed.

(** X17: the store invariant of a connection.  Started on a store whose
    keys are distinct and hashable and whose keys and values can be written
    and read back (the empty store is one), [connection_handler] leaves such
    a store on every stream, however the connection ends. *)
Theorem X17_connection_keeps_the_store_well_formed
    (up : bytes -> bytes) (kv kv' : store) (input output : bytes) (why : ending) :
  dict_ok kv -> store_wire_ok kv ->
  connection_handler up kv input = Some (kv', output, why) ->
  dict_ok kv' /\ store_wire_ok kv'.
Proof.
  intros Hok Hs H. unfold connection_handler in H.
  destruct (connection_loop_keeps up _ _ _ _ _ _ _ Hok Hs H) as (H1 & H2 & _).
  split; assumption.
Qed.

Lemma X17_connection_keeps_the_store_well_formed_witness :
  dict_ok [] /\ store_wire_ok []
  /\ connection_handler upper_ascii []
       (request [b "MSET"; b "a"; b "1"; b "a"; b "2"] ++ request [b "GET"])
     = Some ([(PStr (b "a"), PStr (b "2"))], _write (PInt 2), Uncaught TypeError)
  /\ dict_ok [(PStr (b "a"), PStr (b "2"))]
  /\ store_wire_ok [(PStr (b "a"), PStr (b "2"))].
Proof.
  assert (H0 : dict_ok []) by (split; [constructor|reflexivity]).
  assert (H1 : store_wire_ok []) by constructor.
  assert (H2 : connection_handler upper_ascii []
                 (request [b "MSET"; b "a"; b "1"; b "a"; b "2"] ++ request [b "GET"])
               = Some ([(PStr (b "a"), PStr (b "2"))], _write (PInt 2),
                       Uncaught TypeError))
    by (vm_compute; reflexivity).
  split; [exact H0|]. split; [exact H1|]. split; [exact H2|].
  exact (X17_connection_keeps_the_store_well_formed upper_ascii [] _ _ _ _
           H0 H1 H2).
Defined.

(** X18: what a connection writes.  Under the same invariant, the bytes
    written to the socket are the encodings of a sequence of responses, one
    whole frame after the other; each response is a value that the client
    reads back as itself, or an [Error] reply. *)
Theorem X18_output_is_a_sequence_of_frames
    (up : bytes -> bytes) (kv kv' : store) (input output : bytes) (why : ending) :
  dict_ok kv -> store_wire_ok kv ->
  connection_handler up kv input = Some (kv', output, why) ->
  exists resps,
    output = flat_map _write resps
    /\ Forall (fun resp => round_trip resp \/ exists m, resp = PError m) resps.
Proof.
  intros Hok Hs H. unfold connection_handler in H.
  destruct (connection_loop_keeps up _ _ _ _ _ _ _ Hok Hs H)
    as (_ & _ & resps & -> & Hall).
  exists resps. split; [reflexivity|].
  eapply Forall_impl; [|exact Hall]. intros resp [Hw | He].
  - left. apply wire_ok_round_trip. assumption.
  - right. assumption.
Qed.

Lemma X18_output_is_a_sequence_of_frames_witness :
  dict_ok [] /\ store_wire_ok []
  /\ exists resps,
      _write (PInt 1) ++ _write (PList [PStr (b "1"); PNone])
      = flat_map _write resps
      /\ Forall (fun resp => round_trip resp \/ exists m, resp = PError m) resps.
Proof.
  assert (H0 : dict_ok []) by (split; [constructor|reflexivity]).
  assert (H1 : store_wire_ok []) by constructor.
  assert (H2 : connection_handler upper_ascii []
                 (request [b "SET"; b "a"; b "1"] ++ request [b "MGET"; b "a"; b "z"])
               = Some ([(PStr (b "a"), PStr (b "1"))],
                       _write (PInt 1) ++ _write (PList [PStr (b "1"); PNone]),
                       PeerDisconnected))
    by (vm_compute; reflexivity).
  split; [exact H0|]. split; [exact H1|].
  exact (X18_output_is_a_sequence_of_frames upper_ascii [] _ _ _ _ H0 H1 H2).
Defined.

(** ** Requests one after the other, and the client *)

Lemma connection_loop_output (up : bytes -> bytes) (fuel : nat) :
  forall kv input output,
    connection_loop up fuel kv input output
    = option_map (prepend output) (connection_loop up fuel kv input []).
Proof.
  induction fuel as [|fuel IH]; intros kv input output; [reflexivity|].
  simpl. destruct (serve_request up kv input) as [[kv1 why|kv1 resp rest]|];
    [simpl; rewrite app_nil_r; reflexivity | | reflexivity].
  rewrite (IH kv1 rest (write_response output resp)).
  rewrite (IH kv1 rest (write_response [] resp)).
  destruct (connection_loop up fuel kv1 rest []) as [[[k o] w]|]; [|reflexivity].
  simpl. unfold write_response. simpl. rewrite app_assoc. reflexivity.
Qed.

Lemma connection_loop_fuel (up : bytes -> bytes) (fuel1 : nat) :
  forall fuel2 kv input output,
    length input < fuel1 -> length input < fuel2 ->
    connection_loop up fuel1 kv input output
    = connection_loop up fuel2 kv input output.
Proof.
  induction fuel1 as [|fuel1 IH]; intros [|fuel2] kv input output H1 H2; try lia.
  simpl. destruct (serve_request up kv input) as [[kv1 why|kv1 resp rest]|] eqn:E;
    try reflexivity.
  apply serve_request_reply in E. apply IH; lia.
Qed.

Lemma connection_handler_end (up : bytes -> bytes) (kv : store) :
  connection_handler up kv [] = Some (kv, [], PeerDisconnected).
Proof. reflexivity. Qed.

(** The first request of a stream is served, then the rest of the stream. *)
Lemma connection_handler_step (up : bytes -> bytes) (kv : store)
    (data : value) (rest : bytes) :
  wire_ok data = true ->
  connection_handler up kv (_write data ++ rest)
  = match respond up kv data with
    | (kv1, Ok resp) =>
      option_map (prepend (_write resp)) (connection_handler up kv1 rest)
    | (kv1, Raise e) => Some (kv1, [], Uncaught e)
    end.
Proof.
  intros Hw. pose proof (wire_ok_round_trip data Hw rest) as Hd.
  pose proof (proj1 (handle_request_consumes _) _ _ _ Hd) as Hlen.
  unfold connection_handler at 1. cbn [connection_loop]. unfold serve_request.
  rewrite Hd. destruct (respond up kv data) as [kv1 [resp|e]]; [|reflexivity].
  rewrite connection_loop_output. unfold write_response. simpl.
  unfold connection_handler.
  rewrite (connection_loop_fuel up (length (_write data ++ rest))
             (S (length rest)) kv1 rest []) by lia.
  reflexivity.
Qed.

(** X19: requests sent one after the other on a connection are served in
    order, each on the store the one before left.  When the stream starts
    with the encoding of a request, the handler answers that request and
    then behaves on the rest of the stream as a handler started on the new
    store, its output coming after the response; if the request raises
    something else than a [CommandError], nothing is written and the rest of
    the stream is not served. *)
Theorem X19_requests_are_served_in_order
    (up : bytes -> bytes) (kv : store) (data : value) (rest : bytes) :
  wire_ok data = true ->
  connection_handler up kv (_write data ++ rest)
  = match respond up kv data with
    | (kv1, Ok resp) =>
      match connection_handler up kv1 rest with
      | Some (kv2, output, why) => Some (kv2, _write resp ++ output, why)
      | None => None
      end
    | (kv1, Raise e) => Some (kv1, [], Uncaught e)
    end.
Proof.
  intros Hw. rewrite (connection_handler_step up kv data rest Hw).
  destruct (respond up kv data) as [kv1 [resp|e]]; [|reflexivity].
  destruct (connection_handler up kv1 rest) as [[[k o] w]|]; reflexivity.
Qed.

Lemma X19_requests_are_served_in_order_witness :
  wire_ok (PList [PStr (b "SET"); PStr (b "a"); PInt 5]) = true
  /\ connection_handler upper_ascii []
       (_write (PList [PStr (b "SET"); PStr (b "a"); PInt 5])
          ++ request [b "GET"; b "a"])
     = match connection_handler upper_ascii [(PStr (b "a"), PInt 5)]
               (request [b "GET"; b "a"]) with
       | Some (kv2, output, why) => Some (kv2, _write (PInt 1) ++ output, why)
       | None => None
       end.
Proof.
  split; [reflexivity|].
  exact (X19_requests_are_served_in_order upper_ascii []
           (PList [PStr (b "SET"); PStr (b "a"); PInt 5])
           (request [b "GET"; b "a"]) eq_refl).
Defined.

Lemma execute_result_write (v : value) :
  wire_ok v = true -> execute_result (_write v) = returned v.
Proof.
  intros Hw. pose proof (wire_ok_round_trip v Hw []) as Hd.
  rewrite app_nil_r in Hd. unfold execute_result. rewrite Hd.
  destruct v; reflexivity.
Qed.

Lemma respond_of_get_response (up : bytes -> bytes) (kv kv' : store)
    (data : value) (r : outcome value) :
  get_response up kv data = (kv', r) ->
  respond up kv data
  = (kv', match r with Raise (CommandError msg) => Ok (PError msg) | _ => r end).
Proof.
  intros H. unfold respond. rewrite H. destruct r as [v|[]]; reflexivity.
Qed.

Lemma get_response_named (up : bytes -> bytes) (kv : store) (name : bytes)
    (args : list value) (c : command) :
  get_commands (up name) = Some c ->
  get_response up kv (PList (PStr name :: args)) = call c kv args.
Proof. intros H. simpl. rewrite H. reflexivity. Qed.

Lemma exchange_step (up : bytes -> bytes) (kv : store) (args : list value) :
  wire_ok (PList args) = true ->
  exchange up kv args
  = match respond up kv (PList args) with
    | (kv', Ok resp) => Some (kv', execute_result (_write resp))
    | (kv', Raise e) => Some (kv', Some (Raise Disconnect))
    end.
Proof.
  intros Hw. unfold exchange.
  change (fst (execute [] args)) with (_write (PList args)).
  rewrite <- (app_nil_r (_write (PList args))).
  rewrite (connection_handler_step up kv (PList args) [] Hw).
  destruct (respond up kv (PList args)) as [kv' [resp|e]]; [|reflexivity].
  rewrite connection_handler_end. unfold option_map, prepend.
  rewrite app_nil_r. reflexivity.
Qed.

(** X20: one call of a client against the server, on a store whose content
    can be sent.  If the command answers a value, [execute] returns that
    value, except that an [Error] read from the store is raised as a
    [CommandError] like an error of the server; if the server raises a
    [CommandError] whose message fits on one line, [execute] raises it with
    the same message; and if the request makes the handler of the connection
    fail, the client finds the end of the stream and raises [Disconnect].
    The store is left as the command left it. *)
Theorem X20_client_call
    (up : bytes -> bytes) (kv kv' : store) (args : list value)
    (r : outcome value) :
  store_wire_ok kv -> wire_ok (PList args) = true ->
  get_response up kv (PList args) = (kv', r) ->
  (forall v, r = Ok v -> exchange up kv args = Some (kv', returned v))
  /\ (forall m, r = Raise (CommandError m) -> wire_ok (PError m) = true ->
                exchange up kv args = Some (kv', Some (Raise (CommandError m))))
  /\ (forall e, r = Raise e -> (forall m, e <> CommandError m) ->
                exchange up kv args = Some (kv', Some (Raise Disconnect))).
Proof.
  intros Hs Hw Hg. rewrite (exchange_step up kv args Hw).
  rewrite (respond_of_get_response up kv kv' _ r Hg).
  destruct (get_response_wire_ok up kv kv' _ r Hw Hs Hg) as [_ Hr].
  split; [|split].
  - intros v ->. rewrite execute_result_write by (apply Hr; reflexivity).
    reflexivity.
  - intros m -> Hm. rewrite (execute_result_write (PError m) Hm). reflexivity.
  - intros e -> He. destruct e; try reflexivity.
    exfalso. apply (He msg). reflexivity.
Qed.

Lemma X20_client_call_witness :
  store_wire_ok [(PStr (b "a"), PError (b "kept"))]
  /\ wire_ok (PList [PStr (b "GET"); PStr (b "a")]) = true
  /\ get_response upper_ascii [(PStr (b "a"), PError (b "kept"))]
       (PList [PStr (b "GET"); PStr (b "a")])
     = ([(PStr (b "a"), PError (b "kept"))], Ok (PError (b "kept")))
  /\ exchange upper_ascii [(PStr (b "a"), PError (b "kept"))]
       [PStr (b "GET"); PStr (b "a")]
     = Some ([(PStr (b "a"), PError (b "kept"))],
             Some (Raise (CommandError (b "kept")))).
Proof.
  assert (Hs : store_wire_ok [(PStr (b "a"), PError (b "kept"))]).
  { constructor; [split; reflexivity | constructor]. }
  split; [exact Hs|]. split; [reflexivity|]. split; [reflexivity|].
  exact (proj1 (X20_client_call upper_ascii
                  [(PStr (b "a"), PError (b "kept"))]
                  [(PStr (b "a"), PError (b "kept"))]
                  [PStr (b "GET"); PStr (b "a")] (Ok (PError (b "kept")))
                  Hs eq_refl eq_refl)
               (PError (b "kept")) eq_refl).
Defined.

(** X21: a client that calls [set(k, v)] and then [get(k)] on one connection
    finds 1 as the result of the first call and [v] as the result of the
    second, whatever the store held before ([v] being raised as a
    [CommandError] when it is an [Error]).  The key is hashable, and the key
    and the value are values that can be sent. *)
Theorem X21_client_set_then_get
    (up : bytes -> bytes) (kv : store) (k v : value) :
  up (b "SET") = b "SET" -> up (b "GET") = b "GET" ->
  hashable k = true -> wire_ok k = true -> wire_ok v = true ->
  exists kv',
    connection_handler up kv (fst (client_set [] k v) ++ fst (client_get [] k))
    = Some (kv', _write (PInt 1) ++ _write v, PeerDisconnected)
    /\ snd (client_set (_write (PInt 1) ++ _write v) k v)
       = Some (Ok (PInt 1, _write v))
    /\ snd (client_get (_write v) k) = returned v.
Proof.
  intros Hset Hget Hk Hwk Hwv. exists (dict_set k v kv). split; [|split].
  - change (fst (client_set [] k v)) with (_write (PList [PStr (b "SET"); k; v])).
    change (fst (client_get [] k)) with (_write (PList [PStr (b "GET"); k])).
    assert (H1 : respond up kv (PList [PStr (b "SET"); k; v])
                 = (dict_set k v kv, Ok (PInt 1))).
    { rewrite (respond_of_get_response up kv (dict_set k v kv) _ (Ok (PInt 1)));
        [reflexivity|].
      rewrite (get_response_named up kv (b "SET") [k; v] SET)
        by (rewrite Hset; reflexivity).
      simpl call. unfold set. rewrite Hk. reflexivity. }
    assert (H2 : respond up (dict_set k v kv) (PList [PStr (b "GET"); k])
                 = (dict_set k v kv, Ok v)).
    { rewrite (respond_of_get_response up _ (dict_set k v kv) _ (Ok v));
        [destruct v; reflexivity|].
      rewrite (get_response_named up _ (b "GET") [k] GET)
        by (rewrite Hget; reflexivity).
      simpl call. unfold get. rewrite Hk, dict_get_set_same by assumption.
      reflexivity. }
    rewrite connection_handler_step
      by (rewrite wire_ok_list; simpl; rewrite Hwk, Hwv; reflexivity).
    rewrite H1.
    rewrite <- (app_nil_r (_write (PList [PStr (b "GET"); k]))).
    rewrite connection_handler_step
      by (rewrite wire_ok_list; simpl; rewrite Hwk; reflexivity).
    rewrite H2, connection_handler_end. unfold option_map, prepend.
    rewrite app_nil_r. reflexivity.
  - change (snd (client_set (_write (PInt 1) ++ _write v) k v))
      with (execute_result (_write (PInt 1) ++ _write v)).
    unfold execute_result.
    rewrite (wire_ok_round_trip (PInt 1) eq_refl (_write v)). reflexivity.
  - change (snd (client_get (_write v) k)) with (execute_result (_write v)).
    apply execute_result_write. assumption.
Qed.

Lemma X21_client_set_then_get_witness :
  upper_ascii (b "SET") = b "SET" /\ upper_ascii (b "GET") = b "GET"
  /\ hashable (PStr (b "k")) = true /\ wire_ok (PStr (b "k")) = true
  /\ wire_ok (PList [PInt 1; PNone]) = true
  /\ exists kv',
      connection_handler upper_ascii [(PStr (b "k"), PInt 0)]
        (fst (client_set [] (PStr (b "k")) (PList [PInt 1; PNone]))
           ++ fst (client_get [] (PStr (b "k"))))
      = Some (kv', _write (PInt 1) ++ _write (PList [PInt 1; PNone]),
              PeerDisconnected)
      /\ snd (client_set (_write (PInt 1) ++ _write (PList [PInt 1; PNone]))
                (PStr (b "k")) (PList [PInt 1; PNone]))
         = Some (Ok (PInt 1, _write (PList [PInt 1; PNone])))
      /\ snd (client_get (_write (PList [PInt 1; PNone])) (PStr (b "k")))
         = returned (PList [PInt 1; PNone]).
Proof.
  split; [reflexivity|]. split; [reflexivity|]. split; [reflexivity|].
  split; [reflexivity|]. split; [reflexivity|].
  exact (X21_client_set_then_get upper_ascii [(PStr (b "k"), PInt 0)]
           (PStr (b "k")) (PList [PInt 1; PNone])
           eq_refl eq_refl eq_refl eq_refl eq_refl).
Defined.

(** ** More on arrays and on [DELETE] *)

Lemma handle_requests_raise (l : list value) (s' : bytes) (e : exn) (fuel0 : nat) :
  Forall reads_back l ->
  handle_request fuel0 s' = Some (Raise e) ->
  exists fuel, forall fuel' n,
      fuel <= fuel' -> (Z.of_nat (length l) < n)%Z ->
      handle_requests fuel' n (flat_map _write l ++ s') = Some (Raise e).
Proof.
  intros Hall Hs'. induction Hall as [|v l [f1 Hv] _ [f2 IH]].
  - exists (S fuel0). intros [|fuel'] n Hle Hn; [lia|].
    change (flat_map _write [] ++ s') with s'.
    rewrite handle_requests_S. simpl in Hn.
    destruct (Z.leb_spec n 0); [lia|].
    rewrite (proj1 (handle_request_mono fuel0) fuel' s' _ ltac:(lia) Hs').
    reflexivity.
  - exists (S (Nat.max f1 f2)). intros [|fuel'] n Hle Hn; [lia|].
    rewrite handle_requests_S. simpl length in Hn.
    destruct (Z.leb_spec n 0); [lia|].
    simpl flat_map. rewrite <- app_assoc, Hv by lia.
    rewrite IH by lia. reflexivity.
Qed.

(** X22: an exception raised while an element of an array is read is the
    outcome of the whole array: the elements read before it are dropped and
    no request is dispatched.  On a connection this ends the loop with no
    response and with the store as it was (a [Disconnect] as the peer
    closing, anything else as an uncaught exception). *)
Theorem X22_failing_element_fails_the_array
    (up : bytes -> bytes) (kv : store) (n : Z) (l : list value)
    (s' : bytes) (e : exn) :
  forallb wire_ok l = true -> (Z.of_nat (length l) < n)%Z ->
  decode s' = Some (Raise e) ->
  decode ("*"%char :: str_of_int n ++ CRLF ++ flat_map _write l ++ s')
  = Some (Raise e)
  /\ serve_request up kv
       ("*"%char :: str_of_int n ++ CRLF ++ flat_map _write l ++ s')
     = Some (Stop kv (match e with
                      | Disconnect => PeerDisconnected
                      | _ => Uncaught e
                      end)).
Proof.
  intros Hw Hn Hs'.
  assert (Hall : Forall reads_back l).
  { rewrite forallb_forall in Hw. apply Forall_forall. intros v Hin.
    specialize (Hw v Hin). apply wire_ok_split in Hw as [Hp Hl].
    apply reads_back_value; assumption. }
  destruct (handle_requests_raise l s' e _ Hall Hs') as [f Hf].
  assert (Hd : decode ("*"%char :: str_of_int n ++ CRLF ++ flat_map _write l ++ s')
               = Some (Raise e)).
  { apply (decode_complete (S f)). rewrite handle_request_S. cbn [handlers].
    unfold handle_array. rewrite read_int_line_str_of_int, Hf by lia.
    reflexivity. }
  split; [exact Hd|]. unfold serve_request. rewrite Hd.
  destruct e; reflexivity.
Qed.

Lemma X22_failing_element_fails_the_array_witness :
  forallb wire_ok [PStr (b "SET"); PStr (b "k")] = true
  /\ (Z.of_nat (length [PStr (b "SET"); PStr (b "k")]) < 3)%Z
  /\ decode (b ":x" ++ CRLF) = Some (Raise ValueError)
  /\ serve_request upper_ascii []
       (b "*3" ++ CRLF ++ b "$3" ++ CRLF ++ b "SET" ++ CRLF ++ b "$1" ++ CRLF
          ++ b "k" ++ CRLF ++ b ":x" ++ CRLF)
     = Some (Stop [] (Uncaught ValueError)).
Proof.
  split; [reflexivity|]. split; [simpl; lia|]. split; [reflexivity|].
  exact (proj2 (X22_failing_element_fails_the_array upper_ascii [] 3
                  [PStr (b "SET"); PStr (b "k")] (b ":x" ++ CRLF) ValueError
                  eq_refl ltac:(simpl; lia) eq_refl)).
Defined.

(** X23: the answer of [DELETE] on a store with distinct keys.  It is 1
    exactly when the key is bound to a value other than [None], and 0 when
    the key is absent or bound to [None]; in every case the key reads as
    [None] afterwards. *)
Theorem X23_delete_answer (kv : store) (k : value) :
  hashable k = true -> NoDup (map fst kv) ->
  exists kv',
    delete kv k
    = (kv', Ok (PInt (match dict_get kv k with
                      | Some PNone | None => 0
                      | Some _ => 1
                      end)))
    /\ get kv' k = (kv', Ok PNone).
Proof. exact (delete_spec kv k). Qed.

Lemma X23_delete_answer_witness :
  hashable (PInt 7) = true
  /\ NoDup (map fst [(PStr (b "a"), PNone); (PInt 7, PStr (b "x"))])
  /\ exists kv',
      delete [(PStr (b "a"), PNone); (PInt 7, PStr (b "x"))] (PInt 7)
      = (kv', Ok (PInt 1))
      /\ get kv' (PInt 7) = (kv', Ok PNone).
Proof.
  assert (Hn : NoDup (map fst [(PStr (b "a"), PNone); (PInt 7, PStr (b "x"))])).
  { simpl. constructor; [intros [H | []]; discriminate|].
    constructor; [intros []|constructor]. }
  split; [reflexivity|]. split; [exact Hn|].
  exact (X23_delete_answer [(PStr (b "a"), PNone); (PInt 7, PStr (b "x"))]
           (PInt 7) eq_refl Hn).
Defined.
